(** * ModbusPY: a tank simulator (Slave.py) and its controller (Master.py)

    Shallow embedding of the two programs of the repository.

    - [Slave]: the register store of the simulated device and the body of
      the [simulate_tank] loop, one call of [simulate_tank_tick] per
      iteration of its [while True].
    - [Master]: the module-level control flags, the keyboard handler and
      the poll cycle of the controller loop, one call of [iteration] per
      iteration of its [while not exit_flag].

    Python integers are unbounded, so levels and timers are [Z].  Log
    records and coil writes are collected in traces. *)

From Stdlib Require Import ZArith Lia Ascii.
From stdpp Require Import base option list.

Local Open Scope Z_scope.
Set Warnings "-clear-no-such-hyp".

(** ** Slave.py *)

Module Slave.

(** The datastore: [co] and [hr] are the value lists of the two
    [ModbusSequentialDataBlock]s, both created at block address 0
    ([di] and [ir] are [None] in the source). *)
Record ModbusSlaveContext : Type := mkStore {
  co : list Z;
  hr : list Z
}.

(** [store = ModbusSlaveContext(co=[0]*20, hr=[500]+[0]*19)] *)
Definition store : ModbusSlaveContext :=
  {| co := replicate 20 0; hr := 500 :: replicate 19 0 |}.

Definition MAX_LEVEL : Z := 1000.
Definition MIN_LEVEL : Z := 0.
Definition PUMP_RATE : Z := 5.
Definition DRAIN_RATE : Z := 3.

(** The values [last_report] takes besides [None]. *)
Inductive report : Type := empty | half | full.

#[global] Instance report_eq_dec : EqDecision report.
Proof. solve_decision. Defined.

(** The records [simulate_tank] hands to [logger.info]. *)
Inductive log_record : Type :=
| StateLine (pump_on valve_open : bool) (new_level : Z)
| TankEmpty
| TankHalfFull (new_level : Z)
| TankFull (new_level : Z).

(** What can happen to the store between two statements of the
    simulator: its own tick, or a coil write of the controller
    ([client.write_coil(0, _)] and [client.write_coil(1, _)]). *)
Inductive action : Type :=
| Tick
| RemoteWriteCoil (address : nat) (value : bool).

(** Python's [bool(x)] on an integer. *)
Definition truthy (x : Z) : bool := negb (x =? 0).

(** Both blocks are created with 20 values. *)
Definition well_formed (s : ModbusSlaveContext) : Prop :=
  length (co s) = 20%nat ∧ length (hr s) = 20%nat.

(** [values[start:start+len(new)] = new] on a Python list. *)
Definition slice_assign (values : list Z) (start : nat) (new : list Z) : list Z :=
  take start values ++ new ++ drop (start + length new)%nat values.

Section Datastore.

(** The datastore class belongs to pymodbus, not to the repository.  Its
    one degree of freedom that the programs do not fix is the address
    translation between a protocol address and an index of the block:
    the identity when the context runs in zero mode, a shift by one
    otherwise.  It is kept as a parameter. *)
Variable zero_mode : bool.

Definition translate (address : nat) : nat :=
  if zero_mode then address else S address.

(** Function codes the two programs use: 1 (read coils) and 5 (write
    single coil) address [co]; 3 (read holding registers) addresses [hr]. *)
Definition getValues (s : ModbusSlaveContext) (fx : Z) (address count : nat)
  : list Z :=
  let block := if (fx =? 1) || (fx =? 5) then co s else hr s in
  take count (drop (translate address) block).

Definition setValues (s : ModbusSlaveContext) (fx : Z) (address : nat)
  (values : list Z) : ModbusSlaveContext :=
  if (fx =? 1) || (fx =? 5)
  then {| co := slice_assign (co s) (translate address) values; hr := hr s |}
  else {| co := co s; hr := slice_assign (hr s) (translate address) values |}.

(** Line 47. *)
Definition delta (pump_on valve_open : bool) : Z :=
  (if pump_on then PUMP_RATE else 0) - (if valve_open then DRAIN_RATE else 0).

(** Line 48: [max(MIN_LEVEL, min(MAX_LEVEL, level + delta))]. *)
Definition clamp (x : Z) : Z := Z.max MIN_LEVEL (Z.min MAX_LEVEL x).

(** Lines 55-65: the [if]/[elif] chain on [new_level]; the result is the
    records logged and the new value of [last_report]. *)
Definition threshold_events (new_level : Z) (last_report : option report)
  : list log_record * option report :=
  if (new_level =? MIN_LEVEL) && bool_decide (last_report ≠ Some empty)
  then ([TankEmpty], Some empty)
  else if (new_level =? MAX_LEVEL / 2) && bool_decide (last_report ≠ Some half)
  then ([TankHalfFull new_level], Some half)
  else if (new_level =? MAX_LEVEL) && bool_decide (last_report ≠ Some full)
  then ([TankFull new_level], Some full)
  else if (MIN_LEVEL <? new_level) && (new_level <? MAX_LEVEL)
  then ([], None)
  else ([], last_report).

(** State of the simulator thread between two iterations. *)
Record sim : Type := mkSim {
  ctx : ModbusSlaveContext;
  last_report : option report
}.

(** [simulate_tank] starts with [last_report = None] on the module's
    [store]. *)
Definition sim_init : sim := {| ctx := store; last_report := None |}.

(** One iteration of the [while True] of [simulate_tank] (lines 41-65).
    [None] is an [IndexError] on [coils[0]], [coils[1]] or
    [getValues(..)[0]]. *)
Definition simulate_tank_tick (st : sim) : option (sim * list log_record) :=
  let coils := getValues (ctx st) 1 0 2 in
  c0 ← coils !! 0%nat;
  c1 ← coils !! 1%nat;
  let pump_on := truthy c0 in
  let valve_open := truthy c1 in
  level ← getValues (ctx st) 3 0 1 !! 0%nat;
  let new_level := clamp (level + delta pump_on valve_open) in
  let s' := setValues (ctx st) 3 0 [new_level] in
  let '(events, last_report') := threshold_events new_level (last_report st) in
  Some ({| ctx := s'; last_report := last_report' |},
        StateLine pump_on valve_open new_level :: events).

(** The value of register 0, coil 0 and coil 1 as a reader sees them. *)
Definition level_of (s : ModbusSlaveContext) : option Z :=
  getValues s 3 0 1 !! 0%nat.

Definition coil_of (s : ModbusSlaveContext) (address : nat) : option bool :=
  truthy <$> (getValues s 1 address 1 !! 0%nat).

(** The server side of the controller's [write_coil]: the value is stored
    as a Python [bool], that is 0 or 1. *)
Definition remote_write_coil (s : ModbusSlaveContext) (address : nat)
  (value : bool) : ModbusSlaveContext :=
  setValues s 5 address [Z.b2z value].

(** One action on the simulator state. *)
Definition step (st : sim) (a : action) : option (sim * list log_record) :=
  match a with
  | Tick => simulate_tank_tick st
  | RemoteWriteCoil address value =>
      if bool_decide (address < 2)%nat
      then Some ({| ctx := remote_write_coil (ctx st) address value;
                    last_report := last_report st |}, [])
      else None
  end.

(** A schedule of actions, with the concatenated log. *)
Fixpoint run_schedule (st : sim) (sched : list action)
  : option (sim * list log_record) :=
  match sched with
  | [] => Some (st, [])
  | a :: sched' =>
      '(st1, log1) ← step st a;
      '(st2, log2) ← run_schedule st1 sched';
      Some (st2, log1 ++ log2)
  end.

(** States the simulator can be in: from the initial store, after any
    schedule of ticks and controller coil writes. *)
Definition sim_reachable (st : sim) : Prop :=
  ∃ sched log, run_schedule sim_init sched = Some (st, log).

(** The invariant of the simulator state: the blocks keep their size and
    register 0 holds a level between [MIN_LEVEL] and [MAX_LEVEL]. *)
Definition level_in_range (st : sim) : Prop :=
  well_formed (ctx st) ∧
  ∃ level, level_of (ctx st) = Some level ∧ 0 ≤ level ≤ 1000.

(** [last_report] names the threshold the level sits on. *)
Definition threshold_level (r : report) : Z :=
  match r with
  | empty => MIN_LEVEL
  | half => MAX_LEVEL / 2
  | full => MAX_LEVEL
  end.

Definition report_matches_level (st : sim) : Prop :=
  ∀ r, last_report st = Some r →
       level_of (ctx st) = Some (threshold_level r).

(** [n] ticks in a row, nothing else touching the store. *)
Definition ticks (n : nat) : list action := replicate n Tick.

End Datastore.

End Slave.

(** ** Master.py *)

Module Master.

(** What [client.read_holding_registers] and [client.read_coils] hand
    back, as far as the loop looks at it: a falsy value ([not rr]), a
    response whose [isError()] is true, or a response with its payload
    ([rr.registers], [rc.bits]). *)
Inductive response (A : Type) : Type :=
| NoResponse
| ErrorResponse
| Reply (payload : A).
Arguments NoResponse {A}.
Arguments ErrorResponse {A}.
Arguments Reply {A} payload.

(** Outcome of the raw send of key [t] (lines 95-113): [client.socket]
    is falsy; [send] raises; [send] goes through and is logged, then the
    drain ([setblocking], [recv]) raises something other than
    [BlockingIOError]; or all of it goes through. *)
Inductive probe_result : Type :=
| NoSocket
| SendRaises
| DrainRaises
| SendOk.

(** The module-level variables of lines 31-39. *)
Record control : Type := mkControl {
  auto_control : bool;
  pump_override : option bool;
  valve_override : option bool;
  exit_flag : bool;
  skip_next_poll : bool;
  activation_a_active : bool;
  activation_a_timer : Z
}.

Definition control_init : control :=
  {| auto_control := true; pump_override := None; valve_override := None;
     exit_flag := false; skip_next_poll := false;
     activation_a_active := false; activation_a_timer := 0 |}.

(** The log records of the loop. *)
Inductive message : Type :=
| ExitReceived
| AutoControl (on : bool)
| PumpOverride (on : bool)
| ValveOverride (open : bool)
| ForceFill
| ForceDrain
| SendingTest
| TestSent
| TestFailed
| NoSocketError
| ReadError
| InvalidCoilResponse
| Activated
| Deactivated
| PumpSet (on : bool)
| ValveSet (open : bool)
| Overall (level : Z) (target_pump valve_state : bool).

(** What an iteration does to the outside: log records, coil writes
    ([client.write_coil(address, value, slave=SLAVE_ID)]) and the raw
    send of the test packet. *)
Inductive event : Type :=
| Log (m : message)
| WriteCoil (address : nat) (value : bool)
| SendRaw (packet : list Z).

(** How an iteration leaves the loop body: on to the next test of the
    [while], out by [break], or out by an uncaught [IndexError]. *)
Inductive flow : Type := Next | Break | Raise.

(** Line 94. *)
Definition raw_packet : list Z := [0; 0; 0; 0; 0; 6; 1; 3; 0; 0; 0; 1].

(** [str.lower] on one ASCII character. *)
Definition lower (ch : ascii) : ascii :=
  let n := nat_of_ascii ch in
  if (65 <=? n)%nat && (n <=? 90)%nat then ascii_of_nat (n + 32) else ch.

Definition set_latch (st : control) (active : bool) (timer : Z) : control :=
  {| auto_control := auto_control st; pump_override := pump_override st;
     valve_override := valve_override st; exit_flag := exit_flag st;
     skip_next_poll := skip_next_poll st;
     activation_a_active := active; activation_a_timer := timer |}.

Definition set_flags (st : control) (auto : bool) (pump valve : option bool)
  : control :=
  {| auto_control := auto; pump_override := pump; valve_override := valve;
     exit_flag := exit_flag st; skip_next_poll := skip_next_poll st;
     activation_a_active := activation_a_active st;
     activation_a_timer := activation_a_timer st |}.

Definition set_exit_flag (st : control) (b : bool) : control :=
  {| auto_control := auto_control st; pump_override := pump_override st;
     valve_override := valve_override st; exit_flag := b;
     skip_next_poll := skip_next_poll st;
     activation_a_active := activation_a_active st;
     activation_a_timer := activation_a_timer st |}.

Definition set_skip_next_poll (st : control) (b : bool) : control :=
  {| auto_control := auto_control st; pump_override := pump_override st;
     valve_override := valve_override st; exit_flag := exit_flag st;
     skip_next_poll := b;
     activation_a_active := activation_a_active st;
     activation_a_timer := activation_a_timer st |}.

(** [not x if x is not None else True] (lines 77 and 80). *)
Definition toggle (x : option bool) : option bool :=
  match x with
  | Some b => Some (negb b)
  | None => Some true
  end.

(** Python's truth value of an override in the log lines. *)
Definition is_on (x : option bool) : bool :=
  match x with
  | Some b => b
  | None => false
  end.

(** Lines 68-113, on the character already lowered. *)
Definition handle_key (ch : ascii) (probe : probe_result) (st : control)
  : control * list event :=
  if (ch =? "q")%char then
    (set_exit_flag st true, [Log ExitReceived])
  else if (ch =? "a")%char then
    let auto := negb (auto_control st) in
    let pump := if auto then None else pump_override st in
    (set_flags st auto pump (valve_override st), [Log (AutoControl auto)])
  else if (ch =? "p")%char then
    let pump := toggle (pump_override st) in
    (set_flags st false pump (valve_override st),
     [Log (PumpOverride (is_on pump))])
  else if (ch =? "v")%char then
    let valve := toggle (valve_override st) in
    (set_flags st (auto_control st) (pump_override st) valve,
     [Log (ValveOverride (is_on valve))])
  else if (ch =? "f")%char then
    (set_flags st false (Some true) (Some false), [Log ForceFill])
  else if (ch =? "d")%char then
    (set_flags st false (Some false) (Some true), [Log ForceDrain])
  else if (ch =? "t")%char then
    match probe with
    | SendOk =>
        (set_skip_next_poll st true,
         [Log SendingTest; SendRaw raw_packet; Log TestSent])
    | DrainRaises =>
        (st, [Log SendingTest; SendRaw raw_packet; Log TestSent;
              Log TestFailed])
    | SendRaises =>
        (st, [Log SendingTest; SendRaw raw_packet; Log TestFailed])
    | NoSocket => (st, [Log SendingTest; Log NoSocketError])
    end
  else (st, []).

(** Lines 135-138: the first [if] of the activation logic. *)
Definition check_activation (level : Z) (st : control) : control * list event :=
  if negb (activation_a_active st) && ((500 <=? level) && (level <=? 520))
  then (set_latch st true 5, [Log Activated])
  else (st, []).

(** Lines 140-144: the second [if] of the activation logic. *)
Definition count_down (st : control) : control * list event :=
  if activation_a_active st then
    let timer := activation_a_timer st - 1 in
    if timer <=? 0
    then (set_latch st false timer, [Log Deactivated])
    else (set_latch st true timer, [])
  else (st, []).

(** Lines 135-144 together. *)
Definition activation_a (level : Z) (st : control) : control * list event :=
  let '(st1, ev1) := check_activation level st in
  let '(st2, ev2) := count_down st1 in
  (st2, ev1 ++ ev2).

(** Lines 147-157. *)
Definition target_pump (st : control) (level : Z) (pump_state : bool) : bool :=
  match pump_override st with
  | Some b => b
  | None =>
      if auto_control st then
        if level <? 300 then true
        else if level >? 700 then false
        else pump_state
      else pump_state
  end.

(** Lines 159-161. *)
Definition pump_action (target pump_state : bool) : list event :=
  if negb (eqb target pump_state)
  then [WriteCoil 0 target; Log (PumpSet target)]
  else [].

(** Lines 164-166. *)
Definition valve_action (st : control) (valve_state : bool) : list event :=
  match valve_override st with
  | Some v =>
      if negb (eqb v valve_state)
      then [WriteCoil 1 v; Log (ValveSet v)]
      else []
  | None => []
  end.

(** Line 123: [not rr or not rc or rr.isError() or rc.isError()]. *)
Definition falsy {A} (r : response A) : bool :=
  match r with NoResponse => true | _ => false end.

Definition isError {A} (r : response A) : bool :=
  match r with ErrorResponse => true | _ => false end.

Definition read_error {A B} (rr : response A) (rc : response B) : bool :=
  falsy rr || falsy rc || isError rr || isError rc.

(** Lines 121-169: the poll of the sensors and what follows it.  Both
    reads are issued before either answer is looked at. *)
Definition poll (st : control) (rr : response (list Z))
  (rc : response (list bool)) : flow * control * list event :=
  if read_error rr rc then (Break, st, [Log ReadError])
  else
    match rr, rc with
    | Reply registers, Reply bits =>
        match registers with
        | [] => (Raise, st, [])
        | level :: _ =>
            match bits with
            | pump_state :: valve_state :: _ =>
                let '(st1, ev1) := activation_a level st in
                let target := target_pump st1 level pump_state in
                (Next, st1,
                 ev1 ++ pump_action target pump_state
                     ++ valve_action st1 valve_state
                     ++ [Log (Overall level target valve_state)])
            | _ => (Break, st, [Log InvalidCoilResponse])
            end
        end
    | _, _ => (Break, st, [Log ReadError])
    end.

(** What one iteration of the loop gets from outside: the key pressed,
    if [select] reports one; how the raw send would go; and the two
    answers of the slave. *)
Record input : Type := mkInput {
  key : option ascii;
  probe : probe_result;
  rr : response (list Z);
  rc : response (list bool)
}.

(** Lines 65-113: the keyboard, when [select] reports a character. *)
Definition keyboard (st : control) (i : input) : control * list event :=
  match key i with
  | Some ch => handle_key (lower ch) (probe i) st
  | None => (st, [])
  end.

(** Lines 60-170: one iteration of [while not exit_flag].  The sleeps are
    left out, time is not part of the model. *)
Definition iteration (st : control) (i : input) : flow * control * list event :=
  let '(st1, ev1) := keyboard st i in
  if skip_next_poll st1 then (Next, set_skip_next_poll st1 false, ev1)
  else
    let '(f, st2, ev2) := poll st1 (rr i) (rc i) in
    (f, st2, ev1 ++ ev2).

(** How a run of the loop stands when the inputs given are used up. *)
Inductive ending : Type :=
| Exited     (* the [while] saw [exit_flag] *)
| Broken     (* [break] *)
| Crashed    (* uncaught exception *)
| Running.   (* still in the loop *)

(** The loop of lines 59-170 on a list of inputs, one per iteration. *)
Fixpoint run (st : control) (inputs : list input)
  : ending * control * list event :=
  if exit_flag st then (Exited, st, [])
  else
    match inputs with
    | [] => (Running, st, [])
    | i :: rest =>
        match iteration st i with
        | (Next, st1, ev1) =>
            let '(e, st2, ev2) := run st1 rest in (e, st2, ev1 ++ ev2)
        | (Break, st1, ev1) => (Broken, st1, ev1)
        | (Raise, st1, ev1) => (Crashed, st1, ev1)
        end
    end.

(** The coil writes of a trace, in order. *)
Definition writes (evs : list event) : list (nat * bool) :=
  omap (λ e, match e with WriteCoil a v => Some (a, v) | _ => None end) evs.

(** The control state after a series of polls whose reads all succeed,
    one triple (level, pump state, valve state) per poll. *)
Fixpoint polls (st : control) (readings : list (Z * bool * bool)) : control :=
  match readings with
  | [] => st
  | (level, pump_state, valve_state) :: rest =>
      polls (poll st (Reply [level]) (Reply [pump_state; valve_state])).1.2 rest
  end.

(** The invariant of the activation latch between two polls: active with
    1 to 4 ticks left, or inactive with the timer at 0. *)
Definition latch_ok (st : control) : Prop :=
  (activation_a_active st = true ∧ 1 ≤ activation_a_timer st ≤ 4) ∨
  (activation_a_active st = false ∧ activation_a_timer st = 0).

(** The input of an iteration whose two reads succeed, with the key
    pressed if any; a raw send would go through. *)
Definition reading (ch : option ascii) (level : Z) (pump valve : bool)
  : input :=
  {| key := ch; probe := SendOk;
     rr := Reply [level]; rc := Reply [pump; valve] |}.

(** Control states at the head of the loop, after any inputs. *)
Definition reachable (st : control) : Prop :=
  ∃ inputs e evs, run control_init inputs = (e, st, evs).

End Master.

(** ** Properties of the simulator *)

Module SlaveSpec.
Import Slave.

Section Simulator.

Variable zero_mode : bool.

#[local] Abbreviation translate := (Slave.translate zero_mode).
#[local] Abbreviation getValues := (Slave.getValues zero_mode).
#[local] Abbreviation setValues := (Slave.setValues zero_mode).
#[local] Abbreviation level_of := (Slave.level_of zero_mode).
#[local] Abbreviation coil_of := (Slave.coil_of zero_mode).
#[local] Abbreviation simulate_tank_tick := (Slave.simulate_tank_tick zero_mode).
#[local] Abbreviation step := (Slave.step zero_mode).
#[local] Abbreviation run_schedule := (Slave.run_schedule zero_mode).
#[local] Abbreviation sim_reachable := (Slave.sim_reachable zero_mode).
#[local] Abbreviation level_in_range := (Slave.level_in_range zero_mode).

(** *** Reads and writes of the store *)

Lemma translate_bound a : (a < 2)%nat → (translate a < 20)%nat.
Proof. unfold Slave.translate; destruct zero_mode; lia. Qed.

Lemma translate_succ a : translate (S a) = S (translate a).
Proof. unfold Slave.translate; now destruct zero_mode. Qed.

Lemma slice_assign_single l i v :
  (i < length l)%nat → slice_assign l i [v] = <[i:=v]> l.
Proof.
  intros Hi. unfold slice_assign. simpl length.
  rewrite Nat.add_1_r. symmetry. now apply insert_take_drop.
Qed.

Lemma level_of_lookup s : level_of s = hr s !! translate 0.
Proof.
  unfold Slave.level_of, Slave.getValues. simpl.
  rewrite lookup_take_lt by lia. rewrite lookup_drop. f_equal; lia.
Qed.

Lemma coil_of_lookup s a : coil_of s a = truthy <$> co s !! translate a.
Proof.
  unfold Slave.coil_of, Slave.getValues. simpl.
  rewrite lookup_take_lt by lia. rewrite lookup_drop. do 2 f_equal; lia.
Qed.

Lemma read_coils_0 s : getValues s 1 0 2 !! 0%nat = co s !! translate 0.
Proof.
  unfold Slave.getValues. simpl.
  rewrite lookup_take_lt by lia. rewrite lookup_drop. f_equal; lia.
Qed.

Lemma read_coils_1 s : getValues s 1 0 2 !! 1%nat = co s !! translate 1.
Proof.
  unfold Slave.getValues. simpl.
  rewrite lookup_take_lt by lia. rewrite lookup_drop, translate_succ.
  f_equal; lia.
Qed.

Lemma write_level s v :
  well_formed s →
  setValues s 3 0 [v] = {| co := co s; hr := <[translate 0 := v]> (hr s) |}.
Proof.
  intros [_ Hh]. unfold Slave.setValues. simpl.
  rewrite slice_assign_single; [easy|].
  rewrite Hh. apply translate_bound; lia.
Qed.

Lemma write_coil s a b :
  well_formed s → (a < 2)%nat →
  remote_write_coil zero_mode s a b
  = {| co := <[translate a := Z.b2z b]> (co s); hr := hr s |}.
Proof.
  intros [Hc _] Ha. unfold remote_write_coil, Slave.setValues. simpl.
  rewrite slice_assign_single; [easy|].
  rewrite Hc. now apply translate_bound.
Qed.

Lemma well_formed_lookups s :
  well_formed s →
  ∃ c0 c1 level,
    co s !! translate 0 = Some c0 ∧ co s !! translate 1 = Some c1 ∧
    hr s !! translate 0 = Some level.
Proof.
  intros [Hc Hh].
  destruct (lookup_lt_is_Some_2 (co s) (translate 0)) as [c0 H0].
  { rewrite Hc. apply translate_bound; lia. }
  destruct (lookup_lt_is_Some_2 (co s) (translate 1)) as [c1 H1].
  { rewrite Hc. apply translate_bound; lia. }
  destruct (lookup_lt_is_Some_2 (hr s) (translate 0)) as [lv H2].
  { rewrite Hh. apply translate_bound; lia. }
  eauto 6.
Qed.

(** *** The tick, unfolded on a well-formed store *)

Lemma tick_unfold st c0 c1 level :
  well_formed (ctx st) →
  co (ctx st) !! translate 0 = Some c0 →
  co (ctx st) !! translate 1 = Some c1 →
  hr (ctx st) !! translate 0 = Some level →
  let new_level := clamp (level + delta (truthy c0) (truthy c1)) in
  simulate_tank_tick st
  = Some ({| ctx := {| co := co (ctx st);
                       hr := <[translate 0 := new_level]> (hr (ctx st)) |};
             last_report := (threshold_events new_level (last_report st)).2 |},
          StateLine (truthy c0) (truthy c1) new_level
            :: (threshold_events new_level (last_report st)).1).
Proof.
  intros Hwf H0 H1 H2 new_level. unfold Slave.simulate_tank_tick.
  rewrite read_coils_0, read_coils_1, H0, H1. simpl.
  fold (level_of (ctx st)). rewrite level_of_lookup, H2. simpl.
  fold new_level. rewrite write_level by assumption.
  now destruct (threshold_events new_level (last_report st)).
Qed.

Lemma clamp_range x : 0 ≤ clamp x ≤ 1000.
Proof. unfold clamp, MIN_LEVEL, MAX_LEVEL. lia. Qed.

(** *** The invariant of the store *)

Lemma init_in_range : level_in_range sim_init.
Proof.
  split; [now split|].
  rewrite level_of_lookup. unfold Slave.translate.
  destruct zero_mode; simpl; eexists; (split; [reflexivity|lia]).
Qed.

Lemma tick_in_range st :
  level_in_range st →
  ∃ st' log, simulate_tank_tick st = Some (st', log) ∧ level_in_range st'.
Proof.
  intros [Hwf _].
  destruct (well_formed_lookups _ Hwf) as (c0 & c1 & level & H0 & H1 & H2).
  rewrite (tick_unfold st c0 c1 level) by assumption.
  do 2 eexists. split; [reflexivity|]. destruct Hwf as [Hc Hh]. split.
  - split; simpl; [easy|]. now rewrite length_insert.
  - eexists. split; [|apply clamp_range].
    rewrite level_of_lookup. simpl. apply list_lookup_insert_eq.
    rewrite Hh. apply translate_bound; lia.
Qed.

Lemma step_in_range st a st' log :
  level_in_range st → step st a = Some (st', log) → level_in_range st'.
Proof.
  intros Hinv Hstep. destruct a as [|a b]; simpl in Hstep.
  - destruct (tick_in_range st Hinv) as (st1 & log1 & Ht & Hinv1). congruence.
  - destruct Hinv as [Hwf (lv & Hlv & Hr)].
    case_bool_decide as Ha; [|discriminate].
    injection Hstep as <- <-. simpl.
    rewrite write_coil by assumption. destruct Hwf as [Hc Hh]. split.
    + split; simpl; [|easy]. now rewrite length_insert.
    + exists lv. split; [|easy]. now rewrite level_of_lookup in *.
Qed.

Lemma run_in_range sched : ∀ st st' log,
  level_in_range st → run_schedule st sched = Some (st', log) →
  level_in_range st'.
Proof.
  induction sched as [|a sched IH]; intros st st' log Hinv Hrun; simpl in Hrun.
  - now injection Hrun as <- <-.
  - destruct (step st a) as [[st1 log1]|] eqn:Hs; [|discriminate].
    simpl in Hrun.
    destruct (run_schedule st1 sched) as [[st2 log2]|] eqn:Hr; [|discriminate].
    simpl in Hrun. injection Hrun as <- <-.
    eapply IH; [|eassumption]. eapply step_in_range; eassumption.
Qed.

Lemma reachable_in_range st : sim_reachable st → level_in_range st.
Proof.
  intros (sched & log & Hrun). eapply run_in_range; [|eassumption].
  apply init_in_range.
Qed.

(** *** The threshold chain, case by case *)

Lemma threshold_events_cases n last :
  let r := threshold_events n last in
  (r = ([TankEmpty], Some empty) ∧ n = 0 ∧ last ≠ Some empty) ∨
  (r = ([TankHalfFull n], Some half) ∧ n = 500 ∧ last ≠ Some half) ∨
  (r = ([TankFull n], Some full) ∧ n = 1000 ∧ last ≠ Some full) ∨
  (r = ([], None) ∧ 0 < n < 1000 ∧ (n = 500 → last = Some half)) ∨
  (r = ([], last) ∧ (n ≤ 0 ∨ 1000 ≤ n) ∧
     (n = 0 → last = Some empty) ∧ (n = 1000 → last = Some full)).
Proof.
  unfold threshold_events, MIN_LEVEL, MAX_LEVEL.
  change (1000 / 2) with 500.
  destruct (Z.eqb_spec n 0) as [E0|E0]; simpl.
  { case_bool_decide as D; simpl.
    - left. easy.
    - subst n; simpl. do 4 right. repeat split; easy || lia. }
  destruct (Z.eqb_spec n 500) as [E5|E5]; simpl.
  { case_bool_decide as D; simpl.
    - right; left. easy.
    - subst n; simpl. do 3 right; left.
      repeat split; easy || lia. }
  destruct (Z.eqb_spec n 1000) as [E1|E1]; simpl.
  { case_bool_decide as D; simpl.
    - do 2 right; left. easy.
    - subst n; simpl. do 4 right. repeat split; easy || lia. }
  destruct (Z.ltb_spec 0 n), (Z.ltb_spec n 1000); simpl.
  - do 3 right; left. repeat split; easy || lia.
  - do 4 right. repeat split; easy || lia.
  - do 4 right. repeat split; easy || lia.
  - do 4 right. repeat split; easy || lia.
Qed.

Lemma delta_values p v :
  delta p v = -3 ∨ delta p v = 0 ∨ delta p v = 2 ∨ delta p v = 5.
Proof. destruct p, v; unfold delta, PUMP_RATE, DRAIN_RATE; lia. Qed.

Ltac elem_small H :=
  repeat (apply elem_of_cons in H as [H|H]; [try discriminate H|]);
  try (apply elem_of_nil in H; contradiction).

Lemma threshold_log_exact n last r :
  r ∈ (threshold_events n last).1 →
  match r with
  | TankEmpty => n = 0
  | TankHalfFull x => n = 500 ∧ x = n
  | TankFull x => n = 1000 ∧ x = n
  | StateLine _ _ _ => False
  end.
Proof.
  destruct (threshold_events_cases n last)
    as [ (-> & E & _) | [ (-> & E & _) | [ (-> & E & _)
       | [ (-> & E & _) | (-> & E & _) ] ] ] ];
    simpl; intros H; elem_small H; subst r; auto.
Qed.

Lemma threshold_passing n last :
  0 < n < 1000 → n ≠ 500 → threshold_events n last = ([], None).
Proof.
  intros Hn H5.
  destruct (threshold_events_cases n last)
    as [ (_ & E & _) | [ (_ & E & _) | [ (_ & E & _)
       | [ (E & _) | (_ & E & _) ] ] ] ];
    solve [ exact E | lia ].
Qed.

Lemma tick_log_events pump_on valve_open n events r :
  r ∈ StateLine pump_on valve_open n :: events →
  (∀ p v l, r ≠ StateLine p v l) → r ∈ events.
Proof.
  intros H Hr. apply elem_of_cons in H as [->|H]; [|exact H].
  now destruct (Hr pump_on valve_open n).
Qed.

(** *** The level update *)

(** C1.  On every tick of a reachable simulator state, with [pump_on]
    and [valve_open] read from coils 0 and 1 and [level] from register 0,
    the tick goes through and leaves in register 0 the value
    [max 0 (min 1000 (level + delta))], where [delta] is 5 if the pump is
    on, minus 3 if the valve is open; the level read and the level
    written both lie between 0 and 1000. *)
Theorem tick_level_clamped st :
  sim_reachable st →
  ∃ pump_on valve_open level st' log,
    coil_of (ctx st) 0 = Some pump_on ∧
    coil_of (ctx st) 1 = Some valve_open ∧
    level_of (ctx st) = Some level ∧
    0 ≤ level ≤ 1000 ∧
    simulate_tank_tick st = Some (st', log) ∧
    let new_level :=
      Z.max 0 (Z.min 1000
        (level + ((if pump_on then 5 else 0) - (if valve_open then 3 else 0))))
    in
    level_of (ctx st') = Some new_level ∧ 0 ≤ new_level ≤ 1000.
Proof.
  intros Hreach. apply reachable_in_range in Hreach as [Hwf (lv & Hlv & Hr)].
  destruct (well_formed_lookups _ Hwf) as (c0 & c1 & level & H0 & H1 & H2).
  assert (lv = level) as -> by (rewrite level_of_lookup in Hlv; congruence).
  pose proof (tick_unfold st c0 c1 level Hwf H0 H1 H2) as Ht.
  exists (truthy c0), (truthy c1), level. do 2 eexists.
  rewrite !coil_of_lookup, H0, H1. repeat split; try easy; try exact Ht.
  - rewrite level_of_lookup. simpl. apply list_lookup_insert_eq.
    destruct Hwf as [_ ->]. apply translate_bound; lia.
  - lia.
  - lia.
Qed.

(** *** Threshold reports *)

(** C10.  A threshold is detected by equality only.  On every tick of a
    reachable state, reading [level] and writing [new_level]: the step
    before clamping is one of -3, 0, 2, 5; if the level passes 500
    without landing on it, no half-full record is logged and
    [last_report] becomes [None]; an empty, half-full or full record is
    logged only when [new_level] is exactly 0, 500 or 1000; and a step
    that would go below 0 or above 1000 lands exactly on 0 or 1000. *)
Theorem threshold_needs_exact_level st :
  sim_reachable st →
  ∃ pump_on valve_open level new_level st' log,
    coil_of (ctx st) 0 = Some pump_on ∧
    coil_of (ctx st) 1 = Some valve_open ∧
    level_of (ctx st) = Some level ∧
    simulate_tank_tick st = Some (st', log) ∧
    level_of (ctx st') = Some new_level ∧
    delta pump_on valve_open ∈ [-3; 0; 2; 5] ∧
    (level < 500 < new_level ∨ new_level < 500 < level →
       (∀ x, TankHalfFull x ∉ log) ∧ last_report st' = None) ∧
    (TankEmpty ∈ log → new_level = 0) ∧
    (∀ x, TankHalfFull x ∈ log → new_level = 500) ∧
    (∀ x, TankFull x ∈ log → new_level = 1000) ∧
    (level + delta pump_on valve_open ≤ 0 → new_level = 0) ∧
    (1000 ≤ level + delta pump_on valve_open → new_level = 1000).
Proof.
  intros Hreach. apply reachable_in_range in Hreach as [Hwf _].
  destruct (well_formed_lookups _ Hwf) as (c0 & c1 & level & H0 & H1 & H2).
  pose proof (tick_unfold st c0 c1 level Hwf H0 H1 H2) as Ht.
  set (new_level := clamp (level + delta (truthy c0) (truthy c1))) in *.
  cbv zeta in Ht.
  exists (truthy c0), (truthy c1), level, new_level. do 2 eexists.
  rewrite !coil_of_lookup, H0, H1, level_of_lookup.
  split; [easy|]. split; [easy|]. split; [easy|]. split; [exact Ht|].
  split.
  { rewrite level_of_lookup. simpl. apply list_lookup_insert_eq.
    destruct Hwf as [_ ->]. apply translate_bound; lia. }
  split.
  { destruct (delta_values (truthy c0) (truthy c1)) as [ -> | [ -> | [ -> | -> ] ] ];
      repeat constructor. }
  simpl. repeat split.
  - intros x Hx. apply tick_log_events in Hx; [|discriminate].
    apply threshold_log_exact in Hx as [Hx _]. lia.
  - rewrite threshold_passing; [reflexivity| |lia].
    pose proof (delta_values (truthy c0) (truthy c1)).
    subst new_level. unfold clamp, MIN_LEVEL, MAX_LEVEL in *. lia.
  - intros Hx. apply tick_log_events in Hx; [|discriminate].
    exact (threshold_log_exact _ _ _ Hx).
  - intros x Hx. apply tick_log_events in Hx; [|discriminate].
    now apply threshold_log_exact in Hx as [Hx _].
  - intros x Hx. apply tick_log_events in Hx; [|discriminate].
    now apply threshold_log_exact in Hx as [Hx _].
  - subst new_level. unfold clamp, MIN_LEVEL, MAX_LEVEL. lia.
  - subst new_level. unfold clamp, MIN_LEVEL, MAX_LEVEL. lia.
Qed.

(** A tick with both coils off on a level of 500 leaves the store as it
    is, and goes through the threshold chain at 500. *)
Lemma idle_tick_at_half st :
  well_formed (ctx st) →
  level_of (ctx st) = Some 500 →
  coil_of (ctx st) 0 = Some false →
  coil_of (ctx st) 1 = Some false →
  ∃ st',
    simulate_tank_tick st
    = Some (st', StateLine false false 500
                   :: (threshold_events 500 (last_report st)).1) ∧
    last_report st' = (threshold_events 500 (last_report st)).2 ∧
    well_formed (ctx st') ∧
    level_of (ctx st') = Some 500 ∧
    coil_of (ctx st') 0 = Some false ∧
    coil_of (ctx st') 1 = Some false.
Proof.
  intros Hwf Hl Hp Hv.
  destruct (well_formed_lookups _ Hwf) as (c0 & c1 & level & H0 & H1 & H2).
  rewrite level_of_lookup, H2 in Hl. injection Hl as ->.
  rewrite coil_of_lookup, H0 in Hp. injection Hp as Hp.
  rewrite coil_of_lookup, H1 in Hv. injection Hv as Hv.
  pose proof (tick_unfold st c0 c1 500 Hwf H0 H1 H2) as Ht.
  rewrite Hp, Hv in Ht. cbv zeta in Ht.
  change (clamp (500 + delta false false)) with 500 in Ht.
  eexists. split; [exact Ht|]. simpl.
  rewrite !coil_of_lookup, level_of_lookup. simpl.
  rewrite H0, H1. simpl. rewrite Hp, Hv.
  destruct Hwf as [Hc Hh]. repeat split; try easy.
  - simpl. now rewrite length_insert.
  - apply list_lookup_insert_eq. rewrite Hh. apply translate_bound; lia.
Qed.

(** C3, where the code departs from it.  Take a reachable state whose
    level is 500 with pump and valve off, and for which the half-full
    record has already been logged ([last_report] is [half]).  Two more
    ticks leave the level at 500 all along, and the second one logs the
    half-full record again: the first of them takes the last branch of
    the chain (0 < 500 < 1000) and forgets the report. *)
Theorem half_report_fires_again st :
  sim_reachable st →
  level_of (ctx st) = Some 500 →
  coil_of (ctx st) 0 = Some false →
  coil_of (ctx st) 1 = Some false →
  last_report st = Some half →
  ∃ st1 st2,
    simulate_tank_tick st = Some (st1, [StateLine false false 500]) ∧
    level_of (ctx st1) = Some 500 ∧
    simulate_tank_tick st1
    = Some (st2, [StateLine false false 500; TankHalfFull 500]) ∧
    level_of (ctx st2) = Some 500.
Proof.
  intros Hreach Hl Hp Hv Hlast.
  apply reachable_in_range in Hreach as [Hwf _].
  destruct (idle_tick_at_half st Hwf Hl Hp Hv)
    as (st1 & Ht1 & Hlast1 & Hwf1 & Hl1 & Hp1 & Hv1).
  rewrite Hlast in Ht1, Hlast1.
  destruct (idle_tick_at_half st1 Hwf1 Hl1 Hp1 Hv1)
    as (st2 & Ht2 & _ & _ & Hl2 & _).
  rewrite Hlast1 in Ht2.
  exists st1, st2. repeat split; assumption.
Qed.

End Simulator.

(** The state after pumping from the initial store up to the top (zero
    mode, pump on, 100 ticks): the next tick reads 1000 and writes 1000. *)
Lemma tick_level_clamped_witness :
  let st := {| ctx := {| co := 1 :: replicate 19 0;
                         hr := 1000 :: replicate 19 0 |};
               last_report := Some full |} in
  sim_reachable true st ∧
  ∃ st' log,
    simulate_tank_tick true st = Some (st', log) ∧
    level_of true (ctx st') = Some 1000.
Proof.
  intros st.
  assert (sim_reachable true st) as Hreach.
  { exists (RemoteWriteCoil 0 true :: ticks 100). eexists.
    vm_compute. reflexivity. }
  split; [exact Hreach|].
  destruct (tick_level_clamped true st Hreach)
    as (pump_on & valve_open & level & st' & log
        & Hp & Hv & Hl & _ & Ht & Hl' & _).
  injection Hp as <-. injection Hv as <-. injection Hl as <-.
  exists st', log. split; [exact Ht|exact Hl'].
Defined.

(** The state with a level of 499, pump on and valve open (zero mode):
    the next tick goes to 501 and nothing is reported. *)
Lemma threshold_needs_exact_level_witness :
  let st := {| ctx := {| co := 1 :: 1 :: replicate 18 0;
                         hr := 499 :: replicate 19 0 |};
               last_report := None |} in
  sim_reachable true st ∧
  ∃ st' log,
    simulate_tank_tick true st = Some (st', log) ∧
    level_of true (ctx st') = Some 501 ∧
    (∀ x, TankHalfFull x ∉ log) ∧ last_report st' = None.
Proof.
  intros st.
  assert (sim_reachable true st) as Hreach.
  { exists [RemoteWriteCoil 1 true; Tick; RemoteWriteCoil 0 true; Tick].
    eexists. vm_compute. reflexivity. }
  split; [exact Hreach|].
  destruct (threshold_needs_exact_level true st Hreach)
    as (pump_on & valve_open & level & new_level & st' & log
        & Hp & Hv & Hl & Ht & Hl' & _ & Hcross & _).
  injection Hp as <-. injection Hv as <-. injection Hl as <-.
  assert (new_level = 501) as ->.
  { vm_compute in Ht. injection Ht as <- _. now injection Hl' as <-. }
  exists st', log. split; [exact Ht|]. split; [exact Hl'|].
  apply Hcross. left. lia.
Defined.

(** The initial store in zero mode after its first tick: level 500, both
    coils off, half-full reported. *)
Lemma half_report_fires_again_witness :
  let st := {| ctx := store; last_report := Some half |} in
  sim_reachable true st ∧
  ∃ st1 st2,
    simulate_tank_tick true st = Some (st1, [StateLine false false 500]) ∧
    simulate_tank_tick true st1
    = Some (st2, [StateLine false false 500; TankHalfFull 500]).
Proof.
  intros st.
  assert (sim_reachable true st) as Hreach.
  { exists [Tick]. eexists. vm_compute. reflexivity. }
  split; [exact Hreach|].
  destruct (half_report_fires_again true st Hreach)
    as (st1 & st2 & Ht1 & _ & Ht2 & _); try reflexivity.
  exists st1, st2. split; assumption.
Defined.

End SlaveSpec.

(** ** Properties of the controller *)

Module MasterSpec.
Import Master.

Ltac elem_small H :=
  repeat (apply elem_of_cons in H as [H|H]; [try discriminate H|]);
  try (apply elem_of_nil in H; contradiction).

(** *** A poll whose reads succeed *)

Lemma poll_reply st level registers pump_state valve_state bits :
  poll st (Reply (level :: registers)) (Reply (pump_state :: valve_state :: bits))
  = (Next, (activation_a level st).1,
     (activation_a level st).2
       ++ pump_action (target_pump (activation_a level st).1 level pump_state)
                      pump_state
       ++ valve_action (activation_a level st).1 valve_state
       ++ [Log (Overall level
                  (target_pump (activation_a level st).1 level pump_state)
                  valve_state)]).
Proof. unfold poll. simpl. now destruct (activation_a level st). Qed.

(** *** The latch, one poll at a time *)

Lemma activation_a_flags level st :
  let st' := (activation_a level st).1 in
  auto_control st' = auto_control st ∧
  pump_override st' = pump_override st ∧
  valve_override st' = valve_override st ∧
  exit_flag st' = exit_flag st ∧
  skip_next_poll st' = skip_next_poll st.
Proof.
  unfold activation_a, check_activation, count_down.
  destruct st as [a p v e s act t]; simpl.
  destruct act; simpl;
    repeat match goal with
           | |- context [if ?b then _ else _] => destruct b; simpl
           end; easy.
Qed.

Lemma activation_a_active_step level st :
  activation_a_active st = true →
  let st' := (activation_a level st).1 in
  activation_a_timer st' = activation_a_timer st - 1 ∧
  activation_a_active st' = negb (activation_a_timer st - 1 <=? 0).
Proof.
  unfold activation_a, check_activation, count_down.
  destruct st as [a p v e s act t]; simpl. intros ->; simpl.
  now destruct (t - 1 <=? 0).
Qed.

Lemma activation_a_inactive_step level st :
  activation_a_active st = false →
  let st' := (activation_a level st).1 in
  (500 ≤ level ≤ 520 →
     activation_a_active st' = true ∧ activation_a_timer st' = 4) ∧
  (level < 500 ∨ 520 < level →
     activation_a_active st' = false ∧
     activation_a_timer st' = activation_a_timer st).
Proof.
  unfold activation_a, check_activation, count_down.
  destruct st as [a p v e s act t]; simpl. intros ->; simpl.
  destruct (Z.leb_spec 500 level), (Z.leb_spec level 520); simpl;
    split; intros; try lia; easy.
Qed.

Lemma polls_cons st level pump_state valve_state rest :
  polls st ((level, pump_state, valve_state) :: rest)
  = polls (activation_a level st).1 rest.
Proof. simpl. now rewrite poll_reply. Qed.

(** While active with [t] ticks left, the latch stays active through the
    next [t - 1] polls and drops at poll [t], whatever is read. *)
Lemma polls_count_down readings : ∀ st,
  activation_a_active st = true →
  1 ≤ activation_a_timer st →
  let n := Z.of_nat (length readings) in
  let st' := polls st readings in
  (n < activation_a_timer st →
     activation_a_active st' = true ∧
     activation_a_timer st' = activation_a_timer st - n) ∧
  (n = activation_a_timer st →
     activation_a_active st' = false ∧ activation_a_timer st' = 0).
Proof.
  induction readings as [|[[level p] v] rest IH]; intros st Hact Ht; cbv zeta.
  - simpl. split; intros; [split; [easy|lia]|lia].
  - rewrite polls_cons.
    destruct (activation_a_active_step level st Hact) as [Ht1 Ha1].
    cbv zeta in Ht1, Ha1.
    set (st1 := (activation_a level st).1) in *.
    rewrite length_cons, Nat2Z.inj_succ.
    destruct (Z.leb_spec (activation_a_timer st - 1) 0) as [Hle|Hgt];
      simpl in Ha1.
    + (* last tick of the window *)
      assert (activation_a_timer st = 1) as E by lia.
      split; [lia|]. intros Hn.
      assert (rest = []) as -> by (destruct rest; [easy|simpl in Hn; lia]).
      simpl. split; [easy|lia].
    + destruct (IH st1 Ha1 ltac:(lia)) as [IH1 IH2]. cbv zeta in IH1, IH2.
      split; intros Hn.
      * destruct IH1 as [-> ->]; [lia|]. split; [easy|lia].
      * apply IH2. lia.
Qed.

(** C2, as the code has it.  A poll that finds the latch inactive and
    reads a level between 500 and 520 activates it; the timer is set to
    5 and counted down once in that same poll, so the poll ends with
    the latch active and the timer at 4.  Whatever is read afterwards,
    the latch is still active after each of the next three polls and
    becomes inactive, with the timer at 0, at the fourth.  While the
    latch is active the level read has no influence on it. *)
Theorem latch_activation_window st level pump_state valve_state :
  activation_a_active st = false →
  500 ≤ level ≤ 520 →
  let st1 := (poll st (Reply [level]) (Reply [pump_state; valve_state])).1.2 in
  activation_a_active st1 = true ∧
  activation_a_timer st1 = 4 ∧
  (∀ readings,
     let st' := polls st1 readings in
     ((length readings < 4)%nat →
        activation_a_active st' = true ∧
        activation_a_timer st' = 4 - Z.of_nat (length readings)) ∧
     ((length readings = 4)%nat →
        activation_a_active st' = false ∧ activation_a_timer st' = 0)) ∧
  (∀ st2 level1 level2 p1 v1 p2 v2,
     activation_a_active st2 = true →
     let a := (poll st2 (Reply [level1]) (Reply [p1; v1])).1.2 in
     let b := (poll st2 (Reply [level2]) (Reply [p2; v2])).1.2 in
     activation_a_active a = activation_a_active b ∧
     activation_a_timer a = activation_a_timer b).
Proof.
  intros Hin Hwin st1. subst st1. rewrite poll_reply. simpl.
  destruct (activation_a_inactive_step level st Hin) as [Hact _].
  destruct (Hact Hwin) as [Ha Ht]. clear Hact.
  split; [exact Ha|]. split; [exact Ht|]. split.
  - intros readings.
    destruct (polls_count_down readings _ Ha ltac:(lia)) as [H1 H2].
    cbv zeta in H1, H2. rewrite Ht in H1, H2.
    split; intros Hn; [apply H1|apply H2]; lia.
  - intros st2 level1 level2 p1 v1 p2 v2 Hact2. rewrite !poll_reply. simpl.
    destruct (activation_a_active_step level1 st2 Hact2) as [-> ->].
    now destruct (activation_a_active_step level2 st2 Hact2) as [-> ->].
Qed.

(** *** The latch along the loop *)

Lemma handle_key_latch ch probe st :
  activation_a_active (handle_key ch probe st).1 = activation_a_active st ∧
  activation_a_timer (handle_key ch probe st).1 = activation_a_timer st.
Proof.
  unfold handle_key.
  repeat match goal with
         | |- context [Ascii.eqb ch ?c] =>
             destruct (Ascii.eqb ch c); [try easy|]
         end; [now destruct probe|easy].
Qed.

Lemma keyboard_latch st i :
  activation_a_active (keyboard st i).1 = activation_a_active st ∧
  activation_a_timer (keyboard st i).1 = activation_a_timer st.
Proof.
  unfold keyboard. destruct (key i); [apply handle_key_latch|easy].
Qed.

Lemma latch_ok_ext st st' :
  activation_a_active st' = activation_a_active st →
  activation_a_timer st' = activation_a_timer st →
  latch_ok st → latch_ok st'.
Proof. unfold latch_ok. now intros -> ->. Qed.

Lemma activation_a_latch_ok level st :
  latch_ok st → latch_ok (activation_a level st).1.
Proof.
  intros [[Ha Ht]|[Ha Ht]]; unfold latch_ok.
  - destruct (activation_a_active_step level st Ha) as [-> ->].
    destruct (Z.leb_spec (activation_a_timer st - 1) 0); simpl; [right|left];
      split; easy || lia.
  - destruct (activation_a_inactive_step level st Ha) as [Hin Hout].
    destruct (Z.le_gt_cases 500 level), (Z.le_gt_cases level 520).
    + left. destruct Hin as [-> ->]; [lia|]. split; easy || lia.
    + right. destruct Hout as [-> ->]; [lia|]. easy.
    + right. destruct Hout as [-> ->]; [lia|]. easy.
    + right. destruct Hout as [-> ->]; [lia|]. easy.
Qed.

(** A poll either leaves the control state alone or runs the activation
    logic on the level read. *)
Lemma poll_state st rr rc :
  (poll st rr rc).1.2 = st ∨
  ∃ level, (poll st rr rc).1.2 = (activation_a level st).1.
Proof.
  unfold poll. destruct (read_error rr rc); [now left|].
  destruct rr as [| |[|level registers]], rc as [| |[|p [|v bits]]];
    try now left.
  right. exists level. now destruct (activation_a level st).
Qed.

Lemma iteration_latch_ok st i :
  latch_ok st → latch_ok (iteration st i).1.2.
Proof.
  intros Hok. unfold iteration.
  destruct (keyboard_latch st i) as [Ha Ht].
  destruct (keyboard st i) as [st1 ev1]; simpl in Ha, Ht.
  assert (latch_ok st1) as Hok1 by (eapply latch_ok_ext; eassumption).
  destruct (skip_next_poll st1); [simpl; now apply (latch_ok_ext st1)|].
  destruct (poll_state st1 (rr i) (rc i)) as [E|[level E]];
    destruct (poll st1 (rr i) (rc i)) as [[f st2] ev2]; simpl in *; subst st2.
  - exact Hok1.
  - now apply activation_a_latch_ok.
Qed.

Lemma run_latch_ok inputs : ∀ st, latch_ok st → latch_ok (run st inputs).1.2.
Proof.
  induction inputs as [|i rest IH]; intros st Hok; simpl.
  - now destruct (exit_flag st).
  - destruct (exit_flag st); [exact Hok|].
    pose proof (iteration_latch_ok st i Hok) as Hok1.
    destruct (iteration st i) as [[f st1] ev1]; simpl in Hok1.
    destruct f; try exact Hok1.
    specialize (IH st1 Hok1).
    now destruct (run st1 rest) as [[e st2] ev2].
Qed.

Lemma reachable_latch_ok st : reachable st → latch_ok st.
Proof.
  intros (inputs & e & evs & Hrun).
  pose proof (run_latch_ok inputs control_init) as H.
  rewrite Hrun in H. apply H. right. easy.
Qed.

(** C6.  In every control state the loop can reach, a positive timer
    goes with an active latch, also between the two tests of the
    activation logic and after the poll.  A poll that starts with the
    latch active takes exactly 1 off the timer, and leaves the latch
    inactive if the result is 0 or less, active otherwise. *)
Theorem latch_timer_invariant st :
  reachable st →
  (0 < activation_a_timer st → activation_a_active st = true) ∧
  ∀ level registers pump_state valve_state bits,
    let mid := (check_activation level st).1 in
    let st' := (poll st (Reply (level :: registers))
                        (Reply (pump_state :: valve_state :: bits))).1.2 in
    (0 < activation_a_timer mid → activation_a_active mid = true) ∧
    (0 < activation_a_timer st' → activation_a_active st' = true) ∧
    (activation_a_active st = true →
       activation_a_timer st' = activation_a_timer st - 1 ∧
       (activation_a_timer st' ≤ 0 → activation_a_active st' = false) ∧
       (0 < activation_a_timer st' → activation_a_active st' = true)).
Proof.
  intros Hreach. apply reachable_latch_ok in Hreach as Hok.
  split; [destruct Hok as [[? ?]|[? ?]]; [easy|lia]|].
  intros level registers p v bits. cbv zeta. rewrite poll_reply. simpl.
  split; [|split].
  - unfold check_activation.
    destruct (negb (activation_a_active st) && _); simpl; [easy|].
    destruct Hok as [[? ?]|[? ?]]; [easy|lia].
  - destruct (activation_a_latch_ok level st Hok) as [[? ?]|[? ?]]; [easy|lia].
  - intros Ha. destruct (activation_a_active_step level st Ha) as [-> ->].
    split; [easy|]. split; intros H.
    + apply Z.leb_le in H. now rewrite H.
    + apply negb_true_iff, Z.leb_gt. lia.
Qed.

(** *** What a poll issues *)

Lemma activation_a_events level st e :
  e ∈ (activation_a level st).2 → e = Log Activated ∨ e = Log Deactivated.
Proof.
  unfold activation_a, check_activation, count_down.
  destruct st as [a p v ex s act t]; simpl.
  repeat match goal with
         | |- context [if ?b then _ else _] => destruct b; simpl
         end;
    intros H;
    repeat (apply elem_of_cons in H as [H|H]; [auto|]);
    now apply elem_of_nil in H.
Qed.

Lemma target_pump_flags st st' level pump_state :
  auto_control st' = auto_control st →
  pump_override st' = pump_override st →
  target_pump st' level pump_state = target_pump st level pump_state.
Proof. unfold target_pump. now intros -> ->. Qed.

Lemma valve_action_flags st st' valve_state :
  valve_override st' = valve_override st →
  valve_action st' valve_state = valve_action st valve_state.
Proof. unfold valve_action. now intros ->. Qed.

(** The two ways a poll can go: the decision is taken on the flags and
    the values read, or nothing is decided and the loop is left. *)
Lemma poll_cases st rr rc :
  (∃ level registers pump_state valve_state bits,
     rr = Reply (level :: registers) ∧
     rc = Reply (pump_state :: valve_state :: bits) ∧
     poll st rr rc
     = (Next, (activation_a level st).1,
        (activation_a level st).2
          ++ pump_action (target_pump st level pump_state) pump_state
          ++ valve_action st valve_state
          ++ [Log (Overall level (target_pump st level pump_state)
                     valve_state)])) ∨
  (∃ f evs,
     poll st rr rc = (f, st, evs) ∧
     (f = Break ∨ f = Raise ∧ rr = Reply []) ∧
     (evs = [] ∨ evs = [Log ReadError] ∨ evs = [Log InvalidCoilResponse])).
Proof.
  destruct rr as [| |[|level registers]], rc as [| |[|p [|v bits]]];
    try (right; do 2 eexists; split; [reflexivity|]; split; auto; fail).
  left. exists level, registers, p, v, bits. rewrite poll_reply.
  destruct (activation_a_flags level st) as (Ha & Hp & Hv & _).
  cbv zeta in Ha, Hp, Hv.
  rewrite (target_pump_flags st _ level p Ha Hp), (valve_action_flags st _ v Hv).
  easy.
Qed.

Lemma pump_action_elem target pump_state e :
  e ∈ pump_action target pump_state ↔
  target ≠ pump_state ∧ (e = WriteCoil 0 target ∨ e = Log (PumpSet target)).
Proof.
  unfold pump_action. destruct target, pump_state; simpl;
    rewrite ?elem_of_cons, ?elem_of_nil; naive_solver.
Qed.

Lemma valve_action_elem st valve_state e :
  e ∈ valve_action st valve_state ↔
  ∃ v, valve_override st = Some v ∧ v ≠ valve_state ∧
       (e = WriteCoil 1 v ∨ e = Log (ValveSet v)).
Proof.
  unfold valve_action. destruct (valve_override st) as [[|]|], valve_state;
    simpl; rewrite ?elem_of_cons, ?elem_of_nil; naive_solver.
Qed.

(** The events of a poll that decides, sorted out. *)
Lemma decision_elem st level pump_state valve_state e :
  e ∈ (activation_a level st).2
        ++ pump_action (target_pump st level pump_state) pump_state
        ++ valve_action st valve_state
        ++ [Log (Overall level (target_pump st level pump_state) valve_state)]
  ↔ (e = Log Activated ∨ e = Log Deactivated) ∧ e ∈ (activation_a level st).2
    ∨ e ∈ pump_action (target_pump st level pump_state) pump_state
    ∨ e ∈ valve_action st valve_state
    ∨ e = Log (Overall level (target_pump st level pump_state) valve_state).
Proof.
  rewrite !elem_of_app, elem_of_cons, elem_of_nil.
  pose proof (activation_a_events level st e). naive_solver.
Qed.

Lemma handle_key_events ch probe st a v :
  WriteCoil a v ∉ (handle_key ch probe st).2.
Proof.
  unfold handle_key.
  repeat match goal with
         | |- context [Ascii.eqb ch ?c] => destruct (Ascii.eqb ch c)
         end;
    try destruct probe; simpl;
    rewrite ?not_elem_of_cons; repeat split; try discriminate;
    apply not_elem_of_nil.
Qed.

Lemma handle_key_no_overall ch probe st level target valve :
  Log (Overall level target valve) ∉ (handle_key ch probe st).2.
Proof.
  unfold handle_key.
  repeat match goal with
         | |- context [Ascii.eqb ch ?c] => destruct (Ascii.eqb ch c)
         end;
    try destruct probe; simpl;
    rewrite ?not_elem_of_cons; repeat split; try discriminate;
    apply not_elem_of_nil.
Qed.

Lemma keyboard_no_overall st i level target valve :
  Log (Overall level target valve) ∉ (keyboard st i).2.
Proof.
  unfold keyboard. destruct (key i);
    [apply handle_key_no_overall|apply not_elem_of_nil].
Qed.

Lemma keyboard_events st i a v : WriteCoil a v ∉ (keyboard st i).2.
Proof.
  unfold keyboard. destruct (key i);
    [apply handle_key_events|apply not_elem_of_nil].
Qed.

Lemma writes_elem evs a v : (a, v) ∈ writes evs ↔ WriteCoil a v ∈ evs.
Proof.
  unfold writes. rewrite list_elem_of_omap. split.
  - intros (e & He & Hm). destruct e; try discriminate. now injection Hm as -> ->.
  - intros H. now exists (WriteCoil a v).
Qed.

Lemma writes_nil evs : (∀ a v, WriteCoil a v ∉ evs) → writes evs = [].
Proof.
  induction evs as [|e evs IH]; intros H; [reflexivity|].
  unfold writes in *. simpl. destruct e as [m|a v|pk].
  - apply IH. intros a v Hin. apply (H a v). now right.
  - destruct (H a v). now left.
  - apply IH. intros a v Hin. apply (H a v). now right.
Qed.

Lemma poll_decides st level registers pump_state valve_state bits :
  poll st (Reply (level :: registers)) (Reply (pump_state :: valve_state :: bits))
  = (Next, (activation_a level st).1,
     (activation_a level st).2
       ++ pump_action (target_pump st level pump_state) pump_state
       ++ valve_action st valve_state
       ++ [Log (Overall level (target_pump st level pump_state) valve_state)]).
Proof.
  rewrite poll_reply.
  destruct (activation_a_flags level st) as (Ha & Hp & Hv & _).
  cbv zeta in Ha, Hp, Hv.
  now rewrite (target_pump_flags st _ level pump_state Ha Hp),
              (valve_action_flags st _ valve_state Hv).
Qed.

(** *** The pump *)

(** C4.  A poll that reads [level], [pump_state] and [valve_state] settles
    on a target for the pump, the one it logs in its last record: the
    override if there is one; else under automatic control ON below 300,
    OFF above 700 and the state read in between; else the state read.
    It writes coil 0 exactly when the target differs from the state
    read, and then writes the target. *)
Theorem pump_decision st level registers pump_state valve_state bits :
  let evs := (poll st (Reply (level :: registers))
                      (Reply (pump_state :: valve_state :: bits))).2 in
  ∃ target,
    Log (Overall level target valve_state) ∈ evs ∧
    (∀ b, pump_override st = Some b → target = b) ∧
    (pump_override st = None → auto_control st = true →
       (level < 300 → target = true) ∧
       (700 < level → target = false) ∧
       (300 ≤ level ≤ 700 → target = pump_state)) ∧
    (pump_override st = None → auto_control st = false →
       target = pump_state) ∧
    (∀ v, WriteCoil 0 v ∈ evs ↔ v = target ∧ target ≠ pump_state).
Proof.
  cbv zeta. rewrite poll_decides. simpl.
  exists (target_pump st level pump_state).
  split; [apply decision_elem; auto|].
  split; [|split; [|split]].
  - unfold target_pump. now intros b ->.
  - unfold target_pump. intros -> ->.
    destruct (Z.ltb_spec level 300), (Z.gtb_spec level 700);
      repeat split; intros; easy || lia.
  - unfold target_pump. now intros -> ->.
  - intros v. rewrite decision_elem, pump_action_elem, valve_action_elem.
    naive_solver.
Qed.

(** *** The valve *)

(** C5.  An iteration of the loop writes coil 1 with value [v] exactly
    when it polls, both reads succeed, [valve_override] is [v] and [v]
    differs from the valve state read.  Nothing else enters: not the
    level, not [auto_control], not the latch. *)
Theorem valve_decision st i v :
  WriteCoil 1 v ∈ (iteration st i).2 ↔
  skip_next_poll (keyboard st i).1 = false ∧
  ∃ level registers pump_state valve_state bits,
    rr i = Reply (level :: registers) ∧
    rc i = Reply (pump_state :: valve_state :: bits) ∧
    valve_override (keyboard st i).1 = Some v ∧
    v ≠ valve_state.
Proof.
  unfold iteration. pose proof (keyboard_events st i 1%nat v) as Hk.
  destruct (keyboard st i) as [st1 ev1]; simpl in *.
  destruct (skip_next_poll st1); simpl; [split; [easy|now intros [? _]]|].
  destruct (poll_cases st1 (rr i) (rc i))
    as [(level & registers & p & vs & bits & Hrr & Hrc & ->)
       |(f & evs & Hpoll & Hf & Hev)]; [|rewrite Hpoll]; simpl.
  - rewrite elem_of_app, decision_elem, pump_action_elem, valve_action_elem.
    split.
    + intros H. split; [easy|]. exists level, registers, p, vs, bits.
      naive_solver.
    + intros [_ (l & r & p' & vs' & b' & E1 & E2 & Hv & Hne)].
      rewrite Hrr in E1. rewrite Hrc in E2.
      injection E1 as <- <-. injection E2 as <- <- <-.
      right. do 2 right. left. exists v. auto.
  - rewrite elem_of_app. split.
    + intros [H|H]; [easy|].
      destruct Hev as [ -> | [ -> | -> ] ]; elem_small H.
    + intros [_ (l & r & p' & vs' & b' & E1 & E2 & _)]. exfalso.
      rewrite E1, E2, poll_decides in Hpoll.
      destruct Hf as [ -> | [ -> _ ] ]; discriminate.
Qed.

(** *** Read errors *)

Lemma poll_failure st rr rc :
  rr = NoResponse ∨ rr = ErrorResponse ∨ rc = NoResponse ∨ rc = ErrorResponse
  ∨ (∃ bits, rc = Reply bits ∧ (length bits < 2)%nat) →
  ∃ f evs,
    poll st rr rc = (f, st, evs) ∧
    (f = Break ∨ f = Raise ∧ rr = Reply []) ∧
    (evs = [] ∨ evs = [Log ReadError] ∨ evs = [Log InvalidCoilResponse]).
Proof.
  intros Hfail.
  destruct (poll_cases st rr rc)
    as [(level & registers & p & vs & bits & -> & -> & _)|H]; [|exact H].
  exfalso.
  destruct Hfail as [H|[H|[H|[H|(b & H & Hlen)]]]]; try discriminate.
  injection H as <-. simpl in Hlen. lia.
Qed.

(** X19.  Take an iteration of the loop that gets to its poll.  If the
    register read or the coil read comes back falsy or as an error
    response, or the coil response carries fewer than 2 bits, the loop
    ends in that iteration, whatever inputs would follow: by [break], or
    by the [IndexError] of [rr.registers[0]] when the register response
    is good but empty.  The poll changes nothing in the control state
    and the iteration writes no coil. *)
Theorem read_failure_stops_loop st i rest :
  exit_flag st = false →
  skip_next_poll (keyboard st i).1 = false →
  rr i = NoResponse ∨ rr i = ErrorResponse ∨
  rc i = NoResponse ∨ rc i = ErrorResponse ∨
  (∃ bits, rc i = Reply bits ∧ (length bits < 2)%nat) →
  ∃ e evs,
    run st (i :: rest) = (e, (keyboard st i).1, evs) ∧
    (e = Broken ∨ e = Crashed ∧ rr i = Reply []) ∧
    writes evs = [] ∧
    (∀ level target valve, Log (Overall level target valve) ∉ evs).
Proof.
  intros Hexit Hskip Hfail. simpl. rewrite Hexit. unfold iteration.
  pose proof (keyboard_events st i) as Hk.
  pose proof (keyboard_no_overall st i) as Hko.
  destruct (keyboard st i) as [st1 ev1]; simpl in *. rewrite Hskip.
  destruct (poll_failure st1 (rr i) (rc i) Hfail)
    as (f & evs & -> & Hf & Hev).
  assert (∀ e, e ∈ evs → e = Log ReadError ∨ e = Log InvalidCoilResponse)
    as Hevs.
  { intros e He. destruct Hev as [ -> | [ -> | -> ] ]; elem_small He; auto. }
  assert (writes (ev1 ++ evs) = [] ∧
          ∀ level target valve,
            Log (Overall level target valve) ∉ ev1 ++ evs) as [Hw Ho].
  { split.
    - apply writes_nil. intros a v [H|H]%elem_of_app; [now apply (Hk a v)|].
      now destruct (Hevs _ H).
    - intros level target valve [H|H]%elem_of_app.
      + now apply (Hko level target valve).
      + now destruct (Hevs _ H). }
  destruct Hf as [ -> | [ -> Hrr ] ]; do 2 eexists; eauto 6.
Qed.

(** C7, where the code departs from it.  The register response is good
    but carries no register, and the coil response carries whatever it
    does, fewer than 2 bits included.  Line 127 indexes [rr.registers]
    outside the [try] that guards [rc.bits] in lines 128-132: the
    [IndexError] is not caught, the loop is left by the exception and
    not by [break], and neither error record is logged. *)
Theorem short_coils_without_register_raise st i rest bits :
  exit_flag st = false →
  skip_next_poll (keyboard st i).1 = false →
  rr i = Reply [] →
  rc i = Reply bits →
  run st (i :: rest) = (Crashed, (keyboard st i).1, (keyboard st i).2) ∧
  poll (keyboard st i).1 (rr i) (rc i) = (Raise, (keyboard st i).1, []).
Proof.
  intros Hexit Hskip Hrr Hrc. simpl. rewrite Hexit. unfold iteration.
  destruct (keyboard st i) as [st1 ev1]; simpl in *.
  rewrite Hskip, Hrr, Hrc. simpl. now rewrite app_nil_r.
Qed.

(** *** The latch and the actuators *)

Lemma activation_a_writes level st : writes (activation_a level st).2 = [].
Proof.
  apply writes_nil. intros a v H.
  now destruct (activation_a_events level st _ H).
Qed.

(** C9.  Two polls that get the same answers from the slave and run with
    the same [auto_control], [pump_override] and [valve_override] leave
    the loop body the same way, write the same coils in the same order
    and log the same target for the pump, whatever the latch and its
    timer are in either of them. *)
Theorem latch_is_inert st1 st2 rr rc :
  auto_control st1 = auto_control st2 →
  pump_override st1 = pump_override st2 →
  valve_override st1 = valve_override st2 →
  (poll st1 rr rc).1.1 = (poll st2 rr rc).1.1 ∧
  writes (poll st1 rr rc).2 = writes (poll st2 rr rc).2 ∧
  (∀ level pump_state,
     target_pump st1 level pump_state = target_pump st2 level pump_state) ∧
  (∀ level target valve_state,
     Log (Overall level target valve_state) ∈ (poll st1 rr rc).2 ↔
     Log (Overall level target valve_state) ∈ (poll st2 rr rc).2).
Proof.
  intros Ha Hp Hv.
  assert (∀ level pump_state,
            target_pump st1 level pump_state = target_pump st2 level pump_state)
    as Ht by (intros; now apply target_pump_flags).
  destruct rr as [| |[|level registers]], rc as [| |[|p [|v bits]]];
    try (repeat split; solve [reflexivity | apply Ht | easy]).
  rewrite !poll_decides. simpl.
  rewrite Ht, (valve_action_flags st2 st1 v Hv).
  split; [reflexivity|]. split; [|split; [exact Ht|]].
  - unfold writes. rewrite !omap_app. fold (writes (activation_a level st1).2).
    fold (writes (activation_a level st2).2).
    now rewrite !activation_a_writes.
  - intros l t vs. rewrite !elem_of_app.
    pose proof (activation_a_events level st1 (Log (Overall l t vs))).
    pose proof (activation_a_events level st2 (Log (Overall l t vs))).
    naive_solver.
Qed.

(** *** The theorems at work *)

(** An inactive latch and a level that stays at 510.  The activating poll
    ends with the timer at 4, not 5; four polls later the latch is
    inactive, so it does not last five further polls; and the fifth
    further poll activates it again. *)
Lemma latch_five_ticks_counterexample :
  let reading := (510, false, false) in
  let st1 := (poll control_init (Reply [510]) (Reply [false; false])).1.2 in
  activation_a_active st1 = true ∧
  activation_a_timer st1 ≠ 5 ∧
  activation_a_active (polls st1 [reading; reading; reading; reading]) = false ∧
  activation_a_active
    (polls st1 [reading; reading; reading; reading; reading]) = true.
Proof. vm_compute. repeat split; discriminate. Qed.

(** From the initial control state, a level of 510 and then four polls
    far from the window. *)
Lemma latch_activation_window_witness :
  let st1 := (poll control_init (Reply [510]) (Reply [false; false])).1.2 in
  activation_a_active control_init = false ∧
  500 ≤ 510 ≤ 520 ∧
  activation_a_timer st1 = 4 ∧
  activation_a_active
    (polls st1 [(900, true, false); (100, false, true);
                (505, true, true); (0, false, false)]) = false.
Proof.
  intros st1.
  assert (500 ≤ 510 ≤ 520) as Hwin by lia.
  destruct (latch_activation_window control_init 510 false false
              eq_refl Hwin) as (_ & Ht & Hrun & _).
  split; [reflexivity|]. split; [exact Hwin|]. split; [exact Ht|].
  apply (Hrun [(900, true, false); (100, false, true);
               (505, true, true); (0, false, false)]).
  reflexivity.
Defined.

(** The scenarios of the pump: 250 with the pump off, 750 with the pump
    on, 450 with the pump on (all under automatic control), and an
    override to ON at 900. *)
Lemma pump_decision_witness :
  let forced := set_flags control_init false (Some true) None in
  WriteCoil 0 true
    ∈ (poll control_init (Reply [250]) (Reply [false; false])).2 ∧
  WriteCoil 0 false
    ∈ (poll control_init (Reply [750]) (Reply [true; false])).2 ∧
  (∀ v, WriteCoil 0 v
          ∉ (poll control_init (Reply [450]) (Reply [true; false])).2) ∧
  (∀ v, WriteCoil 0 v ∉ (poll forced (Reply [900]) (Reply [true; false])).2).
Proof.
  intros forced. repeat split.
  - destruct (pump_decision control_init 250 [] false false [])
      as (target & _ & _ & Hauto & _ & Hw).
    destruct (Hauto eq_refl eq_refl) as (Hlow & _).
    apply Hw. rewrite Hlow by lia. easy.
  - destruct (pump_decision control_init 750 [] true false [])
      as (target & _ & _ & Hauto & _ & Hw).
    destruct (Hauto eq_refl eq_refl) as (_ & Hhigh & _).
    apply Hw. rewrite Hhigh by lia. easy.
  - intros v.
    destruct (pump_decision control_init 450 [] true false [])
      as (target & _ & _ & Hauto & _ & Hw).
    destruct (Hauto eq_refl eq_refl) as (_ & _ & Hmid).
    rewrite Hw, Hmid by lia. now intros [_ ?].
  - intros v.
    destruct (pump_decision forced 900 [] true false [])
      as (target & _ & Hover & _ & _ & Hw).
    rewrite Hw, (Hover true eq_refl). now intros [_ ?].
Defined.

(** The control state after one poll at a level of 510: the latch is
    active with 4 ticks left, and the next poll takes it to 3. *)
Lemma latch_timer_invariant_witness :
  let st := set_latch control_init true 4 in
  let st' := (poll st (Reply [800]) (Reply [false; false])).1.2 in
  reachable st ∧
  activation_a_timer st' = 3 ∧ activation_a_active st' = true.
Proof.
  intros st st'.
  assert (reachable st) as Hreach.
  { exists [{| key := None; probe := NoSocket;
               rr := Reply [510]; rc := Reply [false; false] |}].
    do 2 eexists. vm_compute. reflexivity. }
  split; [exact Hreach|].
  destruct (latch_timer_invariant st Hreach) as [_ Hpoll].
  destruct (Hpoll 800 [] false false []) as (_ & _ & Hact).
  destruct (Hact eq_refl) as (Ht & _ & Hpos).
  split; [exact Ht|]. apply Hpos. reflexivity.
Defined.

(** An error response to the register read, a good one to the coil read,
    and a second iteration that would have polled at 250: the loop is
    left by [break] in the first. *)
Lemma read_failure_stops_loop_witness :
  let i := {| key := None; probe := NoSocket;
              rr := ErrorResponse; rc := Reply [false; false] |} in
  let next := {| key := None; probe := NoSocket;
                 rr := Reply [250]; rc := Reply [false; false] |} in
  ∃ evs, run control_init [i; next] = (Broken, control_init, evs) ∧
         writes evs = [].
Proof.
  intros i next.
  destruct (read_failure_stops_loop control_init i [next] eq_refl eq_refl)
    as (e & evs & Hrun & He & Hw & _).
  { right. left. reflexivity. }
  exists evs. split; [|exact Hw].
  destruct He as [ -> | [ _ Hrr ] ]; [exact Hrun|discriminate Hrr].
Defined.

(** Both responses good and empty, in the initial state: the loop is
    left by the exception, with nothing logged. *)
Lemma short_coils_without_register_raise_witness :
  let i := {| key := None; probe := NoSocket;
              rr := Reply []; rc := Reply [] |} in
  let next := {| key := None; probe := NoSocket;
                 rr := Reply [250]; rc := Reply [false; false] |} in
  run control_init [i; next] = (Crashed, control_init, []).
Proof.
  intros i next.
  apply (short_coils_without_register_raise control_init i [next] []
           eq_refl eq_refl eq_refl eq_refl).
Defined.

(** The same poll at 510 with the latch inactive and with the latch
    active and 2 ticks left. *)
Lemma latch_is_inert_witness :
  writes (poll control_init (Reply [510]) (Reply [true; true])).2
  = writes (poll (set_latch control_init true 2)
                 (Reply [510]) (Reply [true; true])).2.
Proof.
  apply (latch_is_inert control_init (set_latch control_init true 2)
           (Reply [510]) (Reply [true; true]) eq_refl eq_refl eq_refl).
Defined.

End MasterSpec.

(** ** More on the simulator *)

Module SlaveExtra.
Import Slave SlaveSpec.

Section Simulator.

Variable zero_mode : bool.

#[local] Abbreviation translate := (Slave.translate zero_mode).
#[local] Abbreviation getValues := (Slave.getValues zero_mode).
#[local] Abbreviation level_of := (Slave.level_of zero_mode).
#[local] Abbreviation coil_of := (Slave.coil_of zero_mode).
#[local] Abbreviation simulate_tank_tick := (Slave.simulate_tank_tick zero_mode).
#[local] Abbreviation step := (Slave.step zero_mode).
#[local] Abbreviation run_schedule := (Slave.run_schedule zero_mode).
#[local] Abbreviation sim_reachable := (Slave.sim_reachable zero_mode).
#[local] Abbreviation level_in_range := (Slave.level_in_range zero_mode).
#[local] Abbreviation report_matches_level :=
  (Slave.report_matches_level zero_mode).

(** *** One tick, from what a reader of the store sees *)

Lemma tick_spec st p v level :
  well_formed (ctx st) →
  coil_of (ctx st) 0 = Some p →
  coil_of (ctx st) 1 = Some v →
  level_of (ctx st) = Some level →
  let new_level := clamp (level + delta p v) in
  ∃ st',
    simulate_tank_tick st
    = Some (st', StateLine p v new_level
                   :: (threshold_events new_level (last_report st)).1) ∧
    well_formed (ctx st') ∧
    co (ctx st') = co (ctx st) ∧
    hr (ctx st') = <[translate 0 := new_level]> (hr (ctx st)) ∧
    level_of (ctx st') = Some new_level ∧
    last_report st' = (threshold_events new_level (last_report st)).2.
Proof.
  intros Hwf Hp Hv Hl.
  destruct (well_formed_lookups zero_mode _ Hwf)
    as (c0 & c1 & lv & H0 & H1 & H2).
  rewrite level_of_lookup, H2 in Hl. injection Hl as ->.
  rewrite coil_of_lookup, H0 in Hp. injection Hp as Hp.
  rewrite coil_of_lookup, H1 in Hv. injection Hv as Hv.
  pose proof (tick_unfold zero_mode st c0 c1 level Hwf H0 H1 H2) as Ht.
  rewrite Hp, Hv in Ht. cbv zeta in *.
  eexists. split; [exact Ht|]. simpl. destruct Hwf as [Hc Hh].
  repeat split; try easy.
  - simpl. now rewrite length_insert.
  - rewrite level_of_lookup. simpl. apply list_lookup_insert_eq.
    rewrite Hh. apply translate_bound; lia.
Qed.

Lemma reachable_reads st :
  sim_reachable st →
  well_formed (ctx st) ∧
  ∃ p v level,
    coil_of (ctx st) 0 = Some p ∧ coil_of (ctx st) 1 = Some v ∧
    level_of (ctx st) = Some level ∧ 0 ≤ level ≤ 1000.
Proof.
  intros [Hwf (level & Hl & Hr)]%reachable_in_range. split; [exact Hwf|].
  destruct (well_formed_lookups zero_mode _ Hwf)
    as (c0 & c1 & lv & H0 & H1 & H2).
  exists (truthy c0), (truthy c1), level.
  rewrite !coil_of_lookup, H0, H1. easy.
Qed.

Lemma well_formed_reads s :
  well_formed s →
  ∃ p v level,
    coil_of s 0 = Some p ∧ coil_of s 1 = Some v ∧ level_of s = Some level.
Proof.
  intros Hwf.
  destruct (well_formed_lookups zero_mode _ Hwf)
    as (c0 & c1 & lv & H0 & H1 & H2).
  exists (truthy c0), (truthy c1), lv.
  rewrite !coil_of_lookup, level_of_lookup, H0, H1, H2. easy.
Qed.

(** A tick that goes through, on any store: the three values it read
    and the state it leaves. *)
Lemma tick_inv st st' log :
  simulate_tank_tick st = Some (st', log) →
  ∃ c0 c1 level,
    co (ctx st) !! translate 0 = Some c0 ∧
    co (ctx st) !! translate 1 = Some c1 ∧
    hr (ctx st) !! translate 0 = Some level ∧
    let new_level := clamp (level + delta (truthy c0) (truthy c1)) in
    ctx st' = {| co := co (ctx st);
                 hr := <[translate 0 := new_level]> (hr (ctx st)) |} ∧
    last_report st' = (threshold_events new_level (last_report st)).2 ∧
    log = StateLine (truthy c0) (truthy c1) new_level
            :: (threshold_events new_level (last_report st)).1.
Proof.
  unfold Slave.simulate_tank_tick.
  rewrite read_coils_0, read_coils_1. fold (level_of (ctx st)).
  rewrite level_of_lookup.
  destruct (co (ctx st) !! translate 0) as [c0|]; [|discriminate].
  destruct (co (ctx st) !! translate 1) as [c1|]; [|discriminate].
  destruct (hr (ctx st) !! translate 0) as [level|] eqn:Hl; [|discriminate].
  simpl. intros H. exists c0, c1, level.
  split; [easy|]. split; [easy|]. split; [easy|]. cbv zeta.
  set (new_level := clamp (level + delta (truthy c0) (truthy c1))) in *.
  destruct (threshold_events new_level (last_report st)) as [events last'].
  injection H as <- <-. simpl. split; [|easy].
  unfold Slave.setValues. simpl. f_equal.
  apply slice_assign_single. eapply lookup_lt_Some, Hl.
Qed.

(** *** What a tick leaves alone *)

(** X1.  A tick that goes through changes nothing a reader can see of
    the coils, nor any holding register other than register 0, and the
    register block keeps its size. *)
Theorem tick_touches_level_only st st' log :
  simulate_tank_tick st = Some (st', log) →
  (∀ address count,
     getValues (ctx st') 1 address count = getValues (ctx st) 1 address count) ∧
  (∀ address, address ≠ 0%nat →
     getValues (ctx st') 3 address 1 = getValues (ctx st) 3 address 1) ∧
  length (hr (ctx st')) = length (hr (ctx st)).
Proof.
  intros (c0 & c1 & level & _ & _ & _ & Hctx & _)%tick_inv.
  cbv zeta in Hctx. rewrite Hctx. unfold Slave.getValues. simpl.
  split; [easy|]. split; [|apply length_insert].
  intros address Ha.
  assert (translate 0 < translate address)%nat as Hlt
    by (unfold Slave.translate; destruct zero_mode; lia).
  now rewrite drop_insert_lt.
Qed.

(** *** [last_report] and the level *)

Lemma run_schedule_invariant (P : sim → Prop) :
  (∀ st a st' log, P st → step st a = Some (st', log) → P st') →
  ∀ sched st st' log,
    P st → run_schedule st sched = Some (st', log) → P st'.
Proof.
  intros Hstep. induction sched as [|a sched IH]; intros st st' log HP Hrun;
    simpl in Hrun.
  - now injection Hrun as <- <-.
  - destruct (step st a) as [[st1 log1]|] eqn:Hs; [|discriminate].
    simpl in Hrun.
    destruct (run_schedule st1 sched) as [[st2 log2]|] eqn:Hr; [|discriminate].
    simpl in Hrun. injection Hrun as <- <-. eauto.
Qed.

Lemma tick_report_matches st st' log :
  well_formed (ctx st) →
  simulate_tank_tick st = Some (st', log) →
  report_matches_level st'.
Proof.
  intros Hwf Ht.
  destruct (well_formed_reads _ Hwf) as (p & v & level & Hp & Hv & Hl).
  destruct (tick_spec st p v level Hwf Hp Hv Hl)
    as (st1 & Ht1 & _ & _ & _ & Hl1 & Hlast1).
  cbv zeta in *. rewrite Ht in Ht1. injection Ht1 as <- _.
  set (n := clamp (level + delta p v)) in *.
  pose proof (clamp_range (level + delta p v)) as Hn. fold n in Hn.
  intros r Hr. rewrite Hl1. f_equal. rewrite Hlast1 in Hr.
  destruct (threshold_events_cases n (last_report st))
    as [ (E & Hc & _) | [ (E & Hc & _) | [ (E & Hc & _)
       | [ (E & Hc & _) | (E & Hc & H0 & H1) ] ] ] ];
    rewrite E in Hr; simpl in Hr.
  - injection Hr as <-. exact Hc.
  - injection Hr as <-. exact Hc.
  - injection Hr as <-. exact Hc.
  - discriminate.
  - assert (n = 0 ∨ n = 1000) as [E0|E1] by lia.
    + rewrite (H0 E0) in Hr. injection Hr as <-. exact E0.
    + rewrite (H1 E1) in Hr. injection Hr as <-. exact E1.
Qed.

Lemma step_report_matches st a st' log :
  level_in_range st ∧ report_matches_level st →
  step st a = Some (st', log) →
  level_in_range st' ∧ report_matches_level st'.
Proof.
  intros [Hin Hrep] Hstep.
  split; [eapply step_in_range; eassumption|].
  destruct a as [|a b]; simpl in Hstep.
  - eapply tick_report_matches; [apply Hin|eassumption].
  - case_bool_decide as Ha; [|discriminate]. injection Hstep as <- _.
    intros r Hr. simpl in *. rewrite write_coil by (apply Hin || exact Ha).
    rewrite level_of_lookup. simpl. rewrite <- level_of_lookup. now apply Hrep.
Qed.

Lemma reachable_report_matches st :
  sim_reachable st → level_in_range st ∧ report_matches_level st.
Proof.
  intros (sched & log & Hrun).
  eapply (run_schedule_invariant
            (λ st, level_in_range st ∧ report_matches_level st));
    [apply step_report_matches| |exact Hrun].
  split; [apply init_in_range|]. intros r Hr. discriminate Hr.
Qed.

(** X2.  In every reachable state of the simulator [last_report] tells
    where the level is: it is [empty] only with the level at 0, [half]
    only at 500 and [full] only at 1000. *)
Theorem last_report_tells_level st :
  sim_reachable st →
  (last_report st = Some empty → level_of (ctx st) = Some 0) ∧
  (last_report st = Some half → level_of (ctx st) = Some 500) ∧
  (last_report st = Some full → level_of (ctx st) = Some 1000).
Proof.
  intros [_ Hrep]%reachable_report_matches.
  repeat split; intros H; apply (Hrep _ H).
Qed.

Lemma threshold_fires n last :
  (n = 0 → last ≠ Some empty → (threshold_events n last).1 = [TankEmpty]) ∧
  (n = 500 → last ≠ Some half →
     (threshold_events n last).1 = [TankHalfFull 500]) ∧
  (n = 1000 → last ≠ Some full →
     (threshold_events n last).1 = [TankFull 1000]).
Proof.
  repeat split; intros -> Hlast; unfold threshold_events; simpl;
    now rewrite bool_decide_true.
Qed.

(** X3.  Every entry into a threshold is reported: on a tick of a
    reachable state that moves the level onto 0, 500 or 1000 from
    another value, the matching record is logged. *)
Theorem threshold_entry_is_reported st :
  sim_reachable st →
  ∃ level new_level st' log,
    level_of (ctx st) = Some level ∧
    simulate_tank_tick st = Some (st', log) ∧
    level_of (ctx st') = Some new_level ∧
    (new_level = 0 → level ≠ 0 → TankEmpty ∈ log) ∧
    (new_level = 500 → level ≠ 500 → TankHalfFull 500 ∈ log) ∧
    (new_level = 1000 → level ≠ 1000 → TankFull 1000 ∈ log).
Proof.
  intros [[Hwf _] Hrep]%reachable_report_matches.
  destruct (well_formed_reads _ Hwf) as (p & v & level & Hp & Hv & Hl).
  destruct (tick_spec st p v level Hwf Hp Hv Hl)
    as (st' & Ht & _ & _ & _ & Hl' & _).
  cbv zeta in *. set (n := clamp (level + delta p v)) in *.
  exists level, n, st'. eexists. split; [exact Hl|]. split; [exact Ht|].
  split; [exact Hl'|].
  destruct (threshold_fires n (last_report st)) as (F0 & F5 & F1).
  repeat split; intros Hn Hne; right.
  - rewrite F0; [now left|exact Hn|]. intros Hr.
    apply Hrep in Hr. rewrite Hl in Hr. now injection Hr.
  - rewrite F5; [now left|exact Hn|]. intros Hr.
    apply Hrep in Hr. rewrite Hl in Hr. now injection Hr.
  - rewrite F1; [now left|exact Hn|]. intros Hr.
    apply Hrep in Hr. rewrite Hl in Hr. now injection Hr.
Qed.

(** *** The size and the direction of a tick *)

(** X4.  A tick of a reachable state moves the level by at most 3 down
    and at most 5 up; it does not raise the level with the pump off, does
    not lower it with the valve closed, and leaves it where it is with
    both off. *)
Theorem tick_step_bounds st :
  sim_reachable st →
  ∃ pump_on valve_open level new_level st' log,
    coil_of (ctx st) 0 = Some pump_on ∧
    coil_of (ctx st) 1 = Some valve_open ∧
    level_of (ctx st) = Some level ∧
    simulate_tank_tick st = Some (st', log) ∧
    level_of (ctx st') = Some new_level ∧
    level - 3 ≤ new_level ≤ level + 5 ∧
    (pump_on = false → new_level ≤ level) ∧
    (valve_open = false → level ≤ new_level) ∧
    (pump_on = false → valve_open = false → new_level = level).
Proof.
  intros Hreach.
  destruct (reachable_reads st Hreach)
    as (Hwf & p & v & level & Hp & Hv & Hl & Hr).
  destruct (tick_spec st p v level Hwf Hp Hv Hl)
    as (st' & Ht & _ & _ & _ & Hl' & _).
  exists p, v, level. do 3 eexists.
  do 5 (split; [eassumption|]).
  unfold clamp, delta, MIN_LEVEL, MAX_LEVEL, PUMP_RATE, DRAIN_RATE.
  destruct p, v; repeat split; intros; lia || discriminate.
Qed.

(** *** Several ticks in a row *)

Lemma tick_keeps_coils st st' log a :
  simulate_tank_tick st = Some (st', log) →
  coil_of (ctx st') a = coil_of (ctx st) a.
Proof.
  intros (c0 & c1 & level & _ & _ & _ & Hctx & _)%tick_inv.
  cbv zeta in Hctx. now rewrite !coil_of_lookup, Hctx.
Qed.

Lemma ticks_succ st n :
  run_schedule st (ticks (S n))
  = '(st1, log1) ← simulate_tank_tick st;
    '(st2, log2) ← run_schedule st1 (ticks n);
    Some (st2, log1 ++ log2).
Proof. reflexivity. Qed.

Lemma clamp_add level d (k : Z) :
  0 ≤ level ≤ 1000 → 0 ≤ k →
  d = -3 ∨ d = 0 ∨ d = 2 ∨ d = 5 →
  clamp (clamp (level + d) + k * d) = clamp (level + (k + 1) * d).
Proof.
  unfold clamp, MIN_LEVEL, MAX_LEVEL.
  intros Hl Hk [ -> | [ -> | [ -> | -> ] ] ]; lia.
Qed.

Lemma ticks_level n : ∀ st p v level,
  well_formed (ctx st) →
  coil_of (ctx st) 0 = Some p →
  coil_of (ctx st) 1 = Some v →
  level_of (ctx st) = Some level →
  0 ≤ level ≤ 1000 →
  ∃ st' log,
    run_schedule st (ticks n) = Some (st', log) ∧
    coil_of (ctx st') 0 = Some p ∧
    coil_of (ctx st') 1 = Some v ∧
    level_of (ctx st') = Some (clamp (level + Z.of_nat n * delta p v)).
Proof.
  induction n as [|n IH]; intros st p v level Hwf Hp Hv Hl Hr.
  - exists st, []. repeat split; try easy. rewrite Hl. f_equal.
    unfold clamp, MIN_LEVEL, MAX_LEVEL. lia.
  - destruct (tick_spec st p v level Hwf Hp Hv Hl)
      as (st1 & Ht & Hwf1 & _ & _ & Hl1 & _).
    cbv zeta in *.
    pose proof (tick_keeps_coils _ _ _ 0%nat Ht) as Hp1.
    pose proof (tick_keeps_coils _ _ _ 1%nat Ht) as Hv1.
    rewrite Hp in Hp1. rewrite Hv in Hv1.
    destruct (IH st1 p v _ Hwf1 Hp1 Hv1 Hl1 (clamp_range _))
      as (st2 & log2 & Hrun & Hp2 & Hv2 & Hl2).
    rewrite ticks_succ, Ht. simpl. rewrite Hrun. simpl.
    do 2 eexists. split; [reflexivity|]. split; [exact Hp2|].
    split; [exact Hv2|]. rewrite Hl2. f_equal.
    rewrite Nat2Z.inj_succ, <- Z.add_1_r.
    apply clamp_add; [exact Hr|lia|apply delta_values].
Qed.

(** X5.  With nothing else touching the store, [n] ticks from a
    reachable state take the level to
    [max 0 (min 1000 (level + n * delta))], where [delta] is the step of
    the coils read at the start: 5 per tick up to 1000 with the pump on
    alone, 3 per tick down to 0 with the valve open alone. *)
Theorem ticks_closed_form st n :
  sim_reachable st →
  ∃ pump_on valve_open level st' log,
    coil_of (ctx st) 0 = Some pump_on ∧
    coil_of (ctx st) 1 = Some valve_open ∧
    level_of (ctx st) = Some level ∧
    run_schedule st (ticks n) = Some (st', log) ∧
    level_of (ctx st')
    = Some (Z.max 0 (Z.min 1000
              (level + Z.of_nat n * ((if pump_on then 5 else 0)
                                     - (if valve_open then 3 else 0))))).
Proof.
  intros Hreach.
  destruct (reachable_reads st Hreach)
    as (Hwf & p & v & level & Hp & Hv & Hl & Hr).
  destruct (ticks_level n st p v level Hwf Hp Hv Hl Hr)
    as (st' & log & Hrun & _ & _ & Hl').
  exists p, v, level, st', log. easy.
Qed.

(** While the level rests on 0 or on 1000 with the matching report
    already made, ticks log their state line and nothing else. *)
Lemma ticks_at_bound n : ∀ st p v level r,
  well_formed (ctx st) →
  coil_of (ctx st) 0 = Some p →
  coil_of (ctx st) 1 = Some v →
  level_of (ctx st) = Some level →
  last_report st = Some r →
  level = 0 ∧ r = empty ∧ delta p v ≤ 0 ∨
  level = 1000 ∧ r = full ∧ 0 ≤ delta p v →
  ∃ st',
    run_schedule st (ticks n)
    = Some (st', replicate n (StateLine p v level)) ∧
    level_of (ctx st') = Some level ∧
    last_report st' = Some r.
Proof.
  induction n as [|n IH]; intros st p v level r Hwf Hp Hv Hl Hlast Hcase.
  - exists st. easy.
  - destruct (tick_spec st p v level Hwf Hp Hv Hl)
      as (st1 & Ht & Hwf1 & _ & _ & Hl1 & Hlast1).
    cbv zeta in *.
    pose proof (tick_keeps_coils _ _ _ 0%nat Ht) as Hp1.
    pose proof (tick_keeps_coils _ _ _ 1%nat Ht) as Hv1.
    rewrite Hp in Hp1. rewrite Hv in Hv1.
    assert (clamp (level + delta p v) = level) as Hstay.
    { unfold clamp, MIN_LEVEL, MAX_LEVEL. lia. }
    rewrite Hstay in *.
    assert (threshold_events level (last_report st) = ([], Some r)) as Hev.
    { rewrite Hlast.
      destruct Hcase as [(-> & -> & _)|(-> & -> & _)]; reflexivity. }
    rewrite Hev in *. simpl in Ht, Hlast1.
    destruct (IH st1 p v level r Hwf1 Hp1 Hv1 Hl1 Hlast1 Hcase)
      as (st2 & Hrun & Hl2 & Hlast2).
    exists st2. rewrite ticks_succ, Ht. simpl. rewrite Hrun. simpl.
    easy.
Qed.

(** X6.  An empty tank is reported once: from a reachable state with the
    level at 0, the pump off and the report made, any number of ticks
    log one state line each at level 0 and no other record. *)
Theorem empty_reported_once st n valve_open :
  sim_reachable st →
  level_of (ctx st) = Some 0 →
  coil_of (ctx st) 0 = Some false →
  coil_of (ctx st) 1 = Some valve_open →
  last_report st = Some empty →
  ∃ st',
    run_schedule st (ticks n)
    = Some (st', replicate n (StateLine false valve_open 0)) ∧
    level_of (ctx st') = Some 0 ∧
    last_report st' = Some empty.
Proof.
  intros [Hwf _]%reachable_in_range Hl Hp Hv Hlast.
  apply (ticks_at_bound n st false valve_open 0 empty); try assumption.
  left. repeat split. now destruct valve_open.
Qed.

(** X7.  A full tank is reported once: from a reachable state with the
    level at 1000, the valve closed and the report made, any number of
    ticks log one state line each at level 1000 and no other record. *)
Theorem full_reported_once st n pump_on :
  sim_reachable st →
  level_of (ctx st) = Some 1000 →
  coil_of (ctx st) 0 = Some pump_on →
  coil_of (ctx st) 1 = Some false →
  last_report st = Some full →
  ∃ st',
    run_schedule st (ticks n)
    = Some (st', replicate n (StateLine pump_on false 1000)) ∧
    level_of (ctx st') = Some 1000 ∧
    last_report st' = Some full.
Proof.
  intros [Hwf _]%reachable_in_range Hl Hp Hv Hlast.
  apply (ticks_at_bound n st pump_on false 1000 full); try assumption.
  right. repeat split. now destruct pump_on.
Qed.

End Simulator.

(** The first tick on the store as created (zero mode). *)
Lemma tick_touches_level_only_witness :
  let st' := {| ctx := store; last_report := Some half |} in
  simulate_tank_tick true sim_init
  = Some (st', [StateLine false false 500; TankHalfFull 500]) ∧
  getValues true (ctx st') 1 0 2 = [0; 0] ∧
  getValues true (ctx st') 3 1 1 = [0].
Proof.
  intros st'.
  assert (simulate_tank_tick true sim_init
          = Some (st', [StateLine false false 500; TankHalfFull 500]))
    as Ht by reflexivity.
  split; [exact Ht|].
  destruct (tick_touches_level_only true _ _ _ Ht) as (Hco & Hhr & _).
  split; [now rewrite Hco|]. now rewrite Hhr.
Defined.

(** The store as created, after its first tick (zero mode). *)
Lemma last_report_tells_level_witness :
  let st := {| ctx := store; last_report := Some half |} in
  sim_reachable true st ∧ level_of true (ctx st) = Some 500.
Proof.
  intros st.
  assert (sim_reachable true st) as Hreach.
  { exists [Tick]. eexists. vm_compute. reflexivity. }
  split; [exact Hreach|].
  now apply (last_report_tells_level true st Hreach).
Defined.

(** Five ticks of draining, then two of pumping: the level is at 495
    with the pump on, and the next tick enters 500. *)
Lemma threshold_entry_is_reported_witness :
  let st := {| ctx := {| co := 1 :: replicate 19 0;
                         hr := 495 :: replicate 19 0 |};
               last_report := None |} in
  sim_reachable true st ∧
  ∃ st' log,
    simulate_tank_tick true st = Some (st', log) ∧ TankHalfFull 500 ∈ log.
Proof.
  intros st.
  assert (sim_reachable true st) as Hreach.
  { exists (RemoteWriteCoil 1 true :: ticks 5
              ++ [RemoteWriteCoil 1 false; RemoteWriteCoil 0 true; Tick; Tick]).
    eexists. vm_compute. reflexivity. }
  split; [exact Hreach|].
  destruct (threshold_entry_is_reported true st Hreach)
    as (level & new_level & st' & log & Hl & Ht & Hl' & _ & Hhalf & _).
  injection Hl as <-.
  assert (new_level = 500) as ->.
  { vm_compute in Ht. injection Ht as <- _. now injection Hl' as <-. }
  exists st', log. split; [exact Ht|]. apply Hhalf; [reflexivity|lia].
Defined.

(** Level 495 with the pump on: the tick goes up by 5. *)
Lemma tick_step_bounds_witness :
  let st := {| ctx := {| co := 1 :: replicate 19 0;
                         hr := 495 :: replicate 19 0 |};
               last_report := None |} in
  sim_reachable true st ∧
  ∃ new_level st' log,
    simulate_tank_tick true st = Some (st', log) ∧
    level_of true (ctx st') = Some new_level ∧
    495 ≤ new_level ≤ 500.
Proof.
  intros st.
  assert (sim_reachable true st) as Hreach.
  { exists (RemoteWriteCoil 1 true :: ticks 5
              ++ [RemoteWriteCoil 1 false; RemoteWriteCoil 0 true; Tick; Tick]).
    eexists. vm_compute. reflexivity. }
  split; [exact Hreach|].
  destruct (tick_step_bounds true st Hreach)
    as (p & v & level & new_level & st' & log
        & Hp & Hv & Hl & Ht & Hl' & Hb & _ & Hup & _).
  injection Hp as <-. injection Hv as <-. injection Hl as <-.
  exists new_level, st', log. split; [exact Ht|]. split; [exact Hl'|].
  specialize (Hup eq_refl). lia.
Defined.

(** The store as created with the pump switched on (zero mode): 30
    ticks take the level from 500 to 650, 200 ticks to 1000. *)
Lemma ticks_closed_form_witness :
  let st := {| ctx := {| co := 1 :: replicate 19 0;
                         hr := 500 :: replicate 19 0 |};
               last_report := None |} in
  sim_reachable true st ∧
  (∃ st' log, run_schedule true st (ticks 30) = Some (st', log) ∧
              level_of true (ctx st') = Some 650) ∧
  (∃ st' log, run_schedule true st (ticks 200) = Some (st', log) ∧
              level_of true (ctx st') = Some 1000).
Proof.
  intros st.
  assert (sim_reachable true st) as Hreach.
  { exists [RemoteWriteCoil 0 true]. eexists. vm_compute. reflexivity. }
  split; [exact Hreach|]. split.
  - destruct (ticks_closed_form true st 30 Hreach)
      as (p & v & level & st' & log & Hp & Hv & Hl & Hrun & Hl').
    injection Hp as <-. injection Hv as <-. injection Hl as <-.
    exists st', log. split; [exact Hrun|exact Hl'].
  - destruct (ticks_closed_form true st 200 Hreach)
      as (p & v & level & st' & log & Hp & Hv & Hl & Hrun & Hl').
    injection Hp as <-. injection Hv as <-. injection Hl as <-.
    exists st', log. split; [exact Hrun|exact Hl'].
Defined.

(** Without zero mode register 0 of the store as created reads 0: the
    first tick reports the empty tank, the next three do not. *)
Lemma empty_reported_once_witness :
  let st := {| ctx := store; last_report := Some empty |} in
  sim_reachable false st ∧
  ∃ st',
    run_schedule false st (ticks 3)
    = Some (st', [StateLine false false 0; StateLine false false 0;
                  StateLine false false 0]).
Proof.
  intros st.
  assert (sim_reachable false st) as Hreach.
  { exists [Tick]. eexists. vm_compute. reflexivity. }
  split; [exact Hreach|].
  destruct (empty_reported_once false st 3 false Hreach
              eq_refl eq_refl eq_refl eq_refl) as (st' & Hrun & _).
  exists st'. exact Hrun.
Defined.

(** The pump left on for 100 ticks from 500 (zero mode), and two more. *)
Lemma full_reported_once_witness :
  let st := {| ctx := {| co := 1 :: replicate 19 0;
                         hr := 1000 :: replicate 19 0 |};
               last_report := Some full |} in
  sim_reachable true st ∧
  ∃ st',
    run_schedule true st (ticks 2)
    = Some (st', [StateLine true false 1000; StateLine true false 1000]).
Proof.
  intros st.
  assert (sim_reachable true st) as Hreach.
  { exists (RemoteWriteCoil 0 true :: ticks 100). eexists.
    vm_compute. reflexivity. }
  split; [exact Hreach|].
  destruct (full_reported_once true st 2 true Hreach
              eq_refl eq_refl eq_refl eq_refl) as (st' & Hrun & _).
  exists st'. exact Hrun.
Defined.

End SlaveExtra.

(** ** More on the controller *)

Module MasterExtra.
Import Master MasterSpec.

(** *** The flags along the loop *)

Lemma iteration_flags st i :
  let st1 := (keyboard st i).1 in
  let st' := (iteration st i).1.2 in
  auto_control st' = auto_control st1 ∧
  pump_override st' = pump_override st1 ∧
  valve_override st' = valve_override st1 ∧
  exit_flag st' = exit_flag st1 ∧
  skip_next_poll st' = false.
Proof.
  unfold iteration. destruct (keyboard st i) as [st1 ev1]; simpl.
  destruct (skip_next_poll st1) eqn:Hskip; [easy|].
  destruct (poll_state st1 (rr i) (rc i)) as [E|[level E]];
    destruct (poll st1 (rr i) (rc i)) as [[f st2] ev2]; simpl in *; subst st2.
  - easy.
  - destruct (activation_a_flags level st1) as (-> & -> & -> & -> & ->).
    easy.
Qed.

Lemma run_invariant (P : control → Prop) :
  (∀ st i, P st → P (iteration st i).1.2) →
  ∀ inputs st, P st → P (run st inputs).1.2.
Proof.
  intros Hit. induction inputs as [|i rest IH]; intros st HP; simpl.
  - now destruct (exit_flag st).
  - destruct (exit_flag st); [exact HP|].
    pose proof (Hit st i HP) as HP1.
    destruct (iteration st i) as [[f st1] ev1]; simpl in HP1.
    destruct f; try exact HP1.
    specialize (IH st1 HP1). now destruct (run st1 rest) as [[e st2] ev2].
Qed.

Lemma reachable_invariant (P : control → Prop) :
  P control_init →
  (∀ st i, P st → P (iteration st i).1.2) →
  ∀ st, reachable st → P st.
Proof.
  intros Hinit Hit st (inputs & e & evs & Hrun).
  pose proof (run_invariant P Hit inputs control_init Hinit) as H.
  now rewrite Hrun in H.
Qed.

Lemma reachable_no_skip st : reachable st → skip_next_poll st = false.
Proof.
  apply (reachable_invariant (λ st, skip_next_poll st = false)); [easy|].
  intros st0 i _. apply iteration_flags.
Qed.

Lemma handle_key_auto ch probe st :
  (auto_control st = true → pump_override st = None) →
  auto_control (handle_key ch probe st).1 = true →
  pump_override (handle_key ch probe st).1 = None.
Proof.
  unfold handle_key. destruct st as [a p v e s act t]; simpl.
  repeat match goal with
         | |- context [Ascii.eqb ch ?c] => destruct (Ascii.eqb ch c)
         end;
    try destruct probe; simpl; destruct a; simpl; intuition congruence.
Qed.

(** X8.  Automatic control and a pump override never hold together: in
    every control state the loop can reach, [auto_control] being on
    means [pump_override] is [None]. *)
Theorem auto_excludes_pump_override st :
  reachable st → auto_control st = true → pump_override st = None.
Proof.
  revert st.
  apply (reachable_invariant
           (λ st, auto_control st = true → pump_override st = None));
    [easy|].
  intros st i HP.
  destruct (iteration_flags st i) as (-> & -> & _). unfold keyboard.
  destruct (key i); [now apply handle_key_auto|exact HP].
Qed.

(** *** The test packet *)

Lemma skip_round_trip st :
  skip_next_poll st = false →
  set_skip_next_poll (set_skip_next_poll st true) false = st.
Proof. destruct st; simpl. now intros ->. Qed.

(** X9.  On key [t] (or [T]) in a reachable state: when the packet goes
    out and the drain after it goes through, the iteration sends exactly
    the raw packet, does not poll and leaves the control state as it
    was; when there is no socket, the send raises, or the packet goes
    out but the drain raises, the poll is done as if no key had been
    pressed, after the records of the attempt. *)
Theorem test_key_skips_poll st i ch :
  reachable st →
  key i = Some ch →
  lower ch = "t"%char →
  match probe i with
  | SendOk =>
      iteration st i
      = (Next, st, [Log SendingTest; SendRaw raw_packet; Log TestSent])
  | DrainRaises =>
      iteration st i
      = ((poll st (rr i) (rc i)).1,
         [Log SendingTest; SendRaw raw_packet; Log TestSent; Log TestFailed]
           ++ (poll st (rr i) (rc i)).2)
  | SendRaises =>
      iteration st i
      = ((poll st (rr i) (rc i)).1,
         [Log SendingTest; SendRaw raw_packet; Log TestFailed]
           ++ (poll st (rr i) (rc i)).2)
  | NoSocket =>
      iteration st i
      = ((poll st (rr i) (rc i)).1,
         [Log SendingTest; Log NoSocketError] ++ (poll st (rr i) (rc i)).2)
  end.
Proof.
  intros Hskip%reachable_no_skip Hkey Hch.
  unfold iteration, keyboard. rewrite Hkey, Hch.
  change (handle_key "t" (probe i) st)
    with (match probe i with
          | SendOk =>
              (set_skip_next_poll st true,
               [Log SendingTest; SendRaw raw_packet; Log TestSent])
          | DrainRaises =>
              (st, [Log SendingTest; SendRaw raw_packet; Log TestSent;
                    Log TestFailed])
          | SendRaises =>
              (st, [Log SendingTest; SendRaw raw_packet; Log TestFailed])
          | NoSocket => (st, [Log SendingTest; Log NoSocketError])
          end).
  destruct (probe i); simpl; rewrite ?Hskip.
  - now destruct (poll st (rr i) (rc i)) as [[f st2] ev2].
  - now destruct (poll st (rr i) (rc i)) as [[f st2] ev2].
  - now destruct (poll st (rr i) (rc i)) as [[f st2] ev2].
  - now rewrite skip_round_trip.
Qed.

(** *** The valve override *)

Lemma handle_key_valve ch probe st :
  is_Some (valve_override st) →
  is_Some (valve_override (handle_key ch probe st).1).
Proof.
  unfold handle_key. destruct st as [a p v e s act t]; simpl.
  intros [b ->].
  repeat match goal with
         | |- context [Ascii.eqb ch ?c] => destruct (Ascii.eqb ch c)
         end;
    try destruct probe; simpl; eauto.
Qed.

(** X10.  No key gives the valve back: once [valve_override] is set, it
    is still set after any further run of the loop. *)
Theorem valve_override_is_kept st inputs :
  is_Some (valve_override st) →
  is_Some (valve_override (run st inputs).1.2).
Proof.
  revert st.
  apply (run_invariant (λ st, is_Some (valve_override st))).
  intros st i HP.
  destruct (iteration_flags st i) as (_ & _ & -> & _). unfold keyboard.
  destruct (key i); [now apply handle_key_valve|exact HP].
Qed.

(** *** The coil writes of an iteration *)

Lemma writes_app evs1 evs2 : writes (evs1 ++ evs2) = writes evs1 ++ writes evs2.
Proof. unfold writes. apply omap_app. Qed.

Lemma writes_pump_action target pump_state :
  writes (pump_action target pump_state)
  = if eqb target pump_state then [] else [(0%nat, target)].
Proof. now destruct target, pump_state. Qed.

Lemma writes_valve_action st valve_state :
  writes (valve_action st valve_state)
  = match valve_override st with
    | Some v => if eqb v valve_state then [] else [(1%nat, v)]
    | None => []
    end.
Proof.
  unfold valve_action. destruct (valve_override st) as [v|]; [|easy].
  now destruct v, valve_state.
Qed.

Lemma writes_keyboard st i : writes (keyboard st i).2 = [].
Proof. apply writes_nil. intros a v. apply keyboard_events. Qed.

Lemma writes_decision st level registers pump_state valve_state bits :
  writes (poll st (Reply (level :: registers))
                  (Reply (pump_state :: valve_state :: bits))).2
  = writes (pump_action (target_pump st level pump_state) pump_state)
      ++ writes (valve_action st valve_state).
Proof.
  rewrite poll_decides. simpl.
  rewrite !writes_app, activation_a_writes. simpl.
  now rewrite app_nil_r.
Qed.

Lemma writes_poll st rr rc :
  writes (poll st rr rc).2 = [] ∨
  ∃ level pump_state valve_state,
    writes (poll st rr rc).2
    = writes (pump_action (target_pump st level pump_state) pump_state)
        ++ writes (valve_action st valve_state).
Proof.
  destruct (poll_cases st rr rc)
    as [(level & registers & p & vs & bits & -> & -> & _)
       |(f & evs & -> & _ & Hev)].
  - right. exists level, p, vs. apply writes_decision.
  - left. simpl. now destruct Hev as [ -> | [ -> | -> ] ].
Qed.

Lemma writes_iteration st i :
  writes (iteration st i).2 = [] ∨
  writes (iteration st i).2 = writes (poll (keyboard st i).1 (rr i) (rc i)).2.
Proof.
  unfold iteration. pose proof (writes_keyboard st i) as Hk.
  destruct (keyboard st i) as [st1 ev1]; simpl in *.
  destruct (skip_next_poll st1); [now left|].
  destruct (poll st1 (rr i) (rc i)) as [[f st2] ev2]; simpl.
  right. now rewrite writes_app, Hk.
Qed.

Lemma writes_iteration_shape st i :
  ∃ ws, writes (iteration st i).2 = ws ∧
        (length ws ≤ 2)%nat ∧
        Forall (λ w, w.1 = 0%nat ∨ w.1 = 1%nat) ws.
Proof.
  eexists. split; [reflexivity|].
  destruct (writes_iteration st i) as [ -> | -> ];
    [split; [simpl; lia|easy]|].
  destruct (writes_poll (keyboard st i).1 (rr i) (rc i))
    as [ -> | (level & p & vs & ->) ]; [split; [simpl; lia|easy]|].
  rewrite writes_pump_action, writes_valve_action.
  destruct (eqb _ p), (valve_override (keyboard st i).1) as [v|];
    try destruct (eqb v vs); simpl; (split; [lia|]);
    repeat (apply Forall_cons; split; [simpl; auto|]); apply Forall_nil_2.
Qed.

(** X11.  The loop writes no coil but the pump's and the valve's: every
    write of a run goes to address 0 or 1, and one iteration issues at
    most two of them. *)
Theorem writes_go_to_pump_and_valve st inputs :
  Forall (λ w, w.1 = 0%nat ∨ w.1 = 1%nat) (writes (run st inputs).2) ∧
  ∀ i, (length (writes (iteration st i).2) ≤ 2)%nat.
Proof.
  split.
  - revert st. induction inputs as [|i rest IH]; intros st; simpl.
    + now destruct (exit_flag st).
    + destruct (exit_flag st); [easy|].
      destruct (writes_iteration_shape st i) as (ws & Hws & _ & Hall).
      destruct (iteration st i) as [[f st1] ev1]; simpl in Hws.
      destruct f; simpl; try (rewrite Hws; exact Hall).
      specialize (IH st1). destruct (run st1 rest) as [[e st2] ev2].
      simpl in *. rewrite writes_app, Hws. now apply Forall_app.
  - intros i. now destruct (writes_iteration_shape st i) as (ws & -> & H & _).
Qed.

(** *** Force fill and force drain *)

Lemma writes_forced st i ch level registers pump_state valve_state bits
  (pump valve : bool) :
  skip_next_poll st = false →
  key i = Some ch →
  handle_key (lower ch) (probe i) st
  = (set_flags st false (Some pump) (Some valve),
     [Log (if pump then ForceFill else ForceDrain)]) →
  rr i = Reply (level :: registers) →
  rc i = Reply (pump_state :: valve_state :: bits) →
  writes (iteration st i).2
  = (if eqb pump pump_state then [] else [(0%nat, pump)])
      ++ (if eqb valve valve_state then [] else [(1%nat, valve)]).
Proof.
  intros Hskip Hkey Hk Hrr Hrc. unfold iteration, keyboard.
  rewrite Hkey, Hk. simpl. rewrite Hskip, Hrr, Hrc.
  pose proof (writes_decision (set_flags st false (Some pump) (Some valve))
                level registers pump_state valve_state bits) as Hw.
  destruct (poll _ _ _) as [[f st2] ev2]; simpl in *.
  now rewrite Hw, writes_pump_action, writes_valve_action.
Qed.

(** X12.  Key [f] (or [F]) in a reachable state, followed by a poll whose
    reads succeed: the iteration writes the pump ON unless it was read
    ON, then the valve CLOSED unless it was read closed, and nothing
    else, at any level and whatever the flags were before. *)
Theorem force_fill_writes st i ch level registers pump_state valve_state bits :
  reachable st →
  key i = Some ch →
  lower ch = "f"%char →
  rr i = Reply (level :: registers) →
  rc i = Reply (pump_state :: valve_state :: bits) →
  writes (iteration st i).2
  = (if pump_state then [] else [(0%nat, true)])
      ++ (if valve_state then [(1%nat, false)] else []).
Proof.
  intros Hskip%reachable_no_skip Hkey Hch Hrr Hrc.
  rewrite (writes_forced st i ch level registers pump_state valve_state bits
             true false Hskip Hkey); try assumption.
  - now destruct pump_state, valve_state.
  - now rewrite Hch.
Qed.

(** X13.  Key [d] (or [D]) in a reachable state, followed by a poll whose
    reads succeed: the iteration writes the pump OFF unless it was read
    OFF, then the valve OPEN unless it was read open, and nothing else. *)
Theorem force_drain_writes st i ch level registers pump_state valve_state bits :
  reachable st →
  key i = Some ch →
  lower ch = "d"%char →
  rr i = Reply (level :: registers) →
  rc i = Reply (pump_state :: valve_state :: bits) →
  writes (iteration st i).2
  = (if pump_state then [(0%nat, false)] else [])
      ++ (if valve_state then [] else [(1%nat, true)]).
Proof.
  intros Hskip%reachable_no_skip Hkey Hch Hrr Hrc.
  rewrite (writes_forced st i ch level registers pump_state valve_state bits
             false true Hskip Hkey); try assumption.
  - now destruct pump_state, valve_state.
  - now rewrite Hch.
Qed.

(** *** Commands that have been carried out *)

Lemma target_pump_settled st level pump_state :
  target_pump st level (target_pump st level pump_state)
  = target_pump st level pump_state.
Proof.
  unfold target_pump. destruct (pump_override st); [easy|].
  destruct (auto_control st); [|easy].
  destruct (level <? 300); [easy|]. now destruct (level >? 700).
Qed.

(** X14.  A command is given once.  If the next poll reads the same
    level, the pump in the state the last poll aimed at and the valve in
    the state its override asks for, and no key came in between, it
    writes no coil. *)
Theorem settled_poll_writes_nothing st level pump_state valve_state :
  let st1 := (poll st (Reply [level]) (Reply [pump_state; valve_state])).1.2 in
  let target := target_pump st level pump_state in
  let valve := default valve_state (valve_override st) in
  writes (poll st1 (Reply [level]) (Reply [target; valve])).2 = [].
Proof.
  cbv zeta. rewrite (poll_decides st). cbn [fst snd]. rewrite writes_decision.
  destruct (activation_a_flags level st) as (Ha & Hp & Hv & _).
  cbv zeta in Ha, Hp, Hv.
  rewrite (target_pump_flags st _ level _ Ha Hp), target_pump_settled.
  rewrite writes_pump_action, writes_valve_action, Hv.
  rewrite eqb_reflx.
  destruct (valve_override st) as [v|]; simpl; [|easy].
  now rewrite eqb_reflx.
Qed.

Lemma poll_writes_flags st1 st2 rr rc :
  auto_control st1 = auto_control st2 →
  pump_override st1 = pump_override st2 →
  valve_override st1 = valve_override st2 →
  writes (poll st1 rr rc).2 = writes (poll st2 rr rc).2.
Proof.
  intros Ha Hp Hv.
  destruct rr as [| |[|level registers]], rc as [| |[|p [|v bits]]];
    try reflexivity.
  rewrite !writes_decision.
  now rewrite (target_pump_flags st2 st1 level p Ha Hp),
              (valve_action_flags st2 st1 v Hv).
Qed.

(** *** Leaving the loop *)

Lemma poll_exit_flag st rr rc : exit_flag (poll st rr rc).1.2 = exit_flag st.
Proof.
  destruct (poll_state st rr rc) as [->|[level ->]]; [easy|].
  now destruct (activation_a_flags level st) as (_ & _ & _ & -> & _).
Qed.

(** X15.  Key [q] (or [Q]) does not cut the iteration short: in a
    reachable state with the loop running, the poll of that iteration is
    still done, writes included, on the flags as they were; the run then
    ends there, whatever inputs would follow. *)
Theorem quit_key_ends_after_poll st i ch rest :
  reachable st →
  exit_flag st = false →
  key i = Some ch →
  lower ch = "q"%char →
  let r := poll (set_exit_flag st true) (rr i) (rc i) in
  run st (i :: rest)
  = (match r.1.1 with Next => Exited | Break => Broken | Raise => Crashed end,
     r.1.2, Log ExitReceived :: r.2) ∧
  exit_flag r.1.2 = true ∧
  writes r.2 = writes (poll st (rr i) (rc i)).2.
Proof.
  intros Hskip%reachable_no_skip Hexit Hkey Hch r. subst r.
  pose proof (poll_exit_flag (set_exit_flag st true) (rr i) (rc i)) as Hflag.
  split; [|split; [exact Hflag|]].
  - simpl. rewrite Hexit. unfold iteration, keyboard. rewrite Hkey, Hch.
    simpl. rewrite Hskip.
    destruct (poll (set_exit_flag st true) (rr i) (rc i)) as [[f st2] ev2].
    simpl in *. destruct f; try reflexivity.
    destruct rest; simpl; rewrite Hflag; now rewrite app_nil_r.
  - apply poll_writes_flags; reflexivity.
Qed.

Lemma handle_key_exit_flag ch probe st :
  ch ≠ "q"%char → exit_flag (handle_key ch probe st).1 = exit_flag st.
Proof.
  intros Hq. unfold handle_key.
  destruct (Ascii.eqb_spec ch "q") as [E|_]; [now destruct Hq|].
  repeat match goal with
         | |- context [Ascii.eqb ch ?c] =>
             destruct (Ascii.eqb ch c); [try easy|]
         end; [now destruct probe|easy].
Qed.

(** X16.  Only the quit key ends the loop through its [while] test: a
    run that starts with [exit_flag] off and ends on the flag has taken
    a [q] or a [Q] from the keyboard. *)
Theorem exit_needs_quit_key inputs : ∀ st st' evs,
  exit_flag st = false →
  run st inputs = (Exited, st', evs) →
  ∃ i ch, i ∈ inputs ∧ key i = Some ch ∧ lower ch = "q"%char.
Proof.
  induction inputs as [|i rest IH]; intros st st' evs Hexit Hrun;
    simpl in Hrun; rewrite Hexit in Hrun; [discriminate|].
  destruct (key i) as [ch|] eqn:Hkey.
  - destruct (Ascii.eqb_spec (lower ch) "q") as [Hq|Hq].
    { exists i, ch. split; [now left|easy]. }
    destruct (iteration_flags st i) as (_ & _ & _ & Hflag & _).
    cbv zeta in Hflag. unfold keyboard in Hflag. rewrite Hkey in Hflag.
    rewrite handle_key_exit_flag, Hexit in Hflag by exact Hq.
    destruct (iteration st i) as [[f st1] ev1]; simpl in Hflag.
    destruct f; try discriminate.
    destruct (run st1 rest) as [[e st2] ev2] eqn:Hrest.
    injection Hrun as -> _ _.
    destruct (IH _ _ _ Hflag Hrest) as (i' & ch' & Hin & H').
    exists i', ch'. split; [now right|exact H'].
  - destruct (iteration_flags st i) as (_ & _ & _ & Hflag & _).
    cbv zeta in Hflag. unfold keyboard in Hflag. rewrite Hkey in Hflag.
    simpl in Hflag. rewrite Hexit in Hflag.
    destruct (iteration st i) as [[f st1] ev1]; simpl in Hflag.
    destruct f; try discriminate.
    destruct (run st1 rest) as [[e st2] ev2] eqn:Hrest.
    injection Hrun as -> _ _.
    destruct (IH _ _ _ Hflag Hrest) as (i' & ch' & Hin & H').
    exists i', ch'. split; [now right|exact H'].
Qed.

(** *** Keys pressed twice *)

(** X17.  Two presses of a key are not always a round trip.  After [a]
    twice automatic control is as before but the pump override is gone;
    after [p] twice control is manual and the override is back where it
    was, or at OFF if there was none; after [v] twice the valve override
    is back where it was, or at closed if there was none. *)
Theorem double_key_presses st probe :
  let twice ch := (handle_key ch probe (handle_key ch probe st).1).1 in
  (auto_control (twice "a"%char) = auto_control st ∧
   pump_override (twice "a"%char) = None ∧
   valve_override (twice "a"%char) = valve_override st) ∧
  (auto_control (twice "p"%char) = false ∧
   pump_override (twice "p"%char) = Some (default false (pump_override st)) ∧
   valve_override (twice "p"%char) = valve_override st) ∧
  (auto_control (twice "v"%char) = auto_control st ∧
   pump_override (twice "v"%char) = pump_override st ∧
   valve_override (twice "v"%char)
   = Some (default false (valve_override st))).
Proof.
  destruct st as [a p v e s act t]. cbv zeta.
  change (handle_key "a" probe) with
    (λ st, (set_flags st (negb (auto_control st))
              (if negb (auto_control st) then None else pump_override st)
              (valve_override st),
            [Log (AutoControl (negb (auto_control st)))])).
  change (handle_key "p" probe) with
    (λ st, (set_flags st false (toggle (pump_override st)) (valve_override st),
            [Log (PumpOverride (is_on (toggle (pump_override st))))])).
  change (handle_key "v" probe) with
    (λ st, (set_flags st (auto_control st) (pump_override st)
              (toggle (valve_override st)),
            [Log (ValveOverride (is_on (toggle (valve_override st))))])).
  simpl. repeat split.
  - now destruct a.
  - now destruct a.
  - now destruct p as [[|]|].
  - now destruct v as [[|]|].
Qed.

(** *** The latch in the log *)

Lemma activation_a_log level st :
  latch_ok st →
  (Log Activated ∈ (activation_a level st).2 ↔
   activation_a_active st = false ∧ 500 ≤ level ≤ 520) ∧
  (Log Deactivated ∈ (activation_a level st).2 ↔
   activation_a_active st = true ∧ activation_a_timer st = 1).
Proof.
  unfold latch_ok, activation_a, check_activation, count_down.
  destruct st as [a p v e s act t]; simpl.
  intros [[-> Ht]|[-> ->]]; simpl.
  - destruct (Z.leb_spec (t - 1) 0); simpl;
      rewrite ?elem_of_cons, ?elem_of_nil; split; split;
      intros; try lia; try easy; intuition (discriminate || lia || auto).
  - destruct (Z.leb_spec 500 level), (Z.leb_spec level 520); simpl;
      rewrite ?elem_of_cons, ?elem_of_nil; split; split;
      intros; try lia; try easy; intuition (discriminate || lia || auto).
Qed.

(** X18.  The two log records of the latch tell its transitions.  In a
    poll of a reachable state whose reads succeed, the activation record
    is logged exactly when the latch is inactive and the level read is
    between 500 and 520, and the deactivation record exactly when the
    latch is active with one tick left; no poll logs both. *)
Theorem latch_log_records st level registers pump_state valve_state bits :
  reachable st →
  let evs := (poll st (Reply (level :: registers))
                      (Reply (pump_state :: valve_state :: bits))).2 in
  (Log Activated ∈ evs ↔
   activation_a_active st = false ∧ 500 ≤ level ≤ 520) ∧
  (Log Deactivated ∈ evs ↔
   activation_a_active st = true ∧ activation_a_timer st = 1) ∧
  ¬ (Log Activated ∈ evs ∧ Log Deactivated ∈ evs).
Proof.
  intros Hok%reachable_latch_ok. cbv zeta. rewrite poll_decides. simpl.
  destruct (activation_a_log level st Hok) as [Hact Hdeact].
  assert (∀ m, m = Activated ∨ m = Deactivated →
            Log m ∈ (activation_a level st).2
                      ++ pump_action (target_pump st level pump_state)
                                     pump_state
                      ++ valve_action st valve_state
                      ++ [Log (Overall level
                                 (target_pump st level pump_state)
                                 valve_state)]
            ↔ Log m ∈ (activation_a level st).2) as Hlog.
  { intros m Hm. rewrite decision_elem, pump_action_elem, valve_action_elem.
    destruct Hm as [ -> | -> ]; naive_solver. }
  rewrite !Hlog by auto. split; [exact Hact|]. split; [exact Hdeact|].
  rewrite Hact, Hdeact. intros [[E _] [E' _]]. congruence.
Qed.

(** *** The theorems at work *)

(** Key [v], then key [p], then key [a]: automatic control is back on
    with the valve override still in place. *)
Lemma auto_excludes_pump_override_witness :
  let st := set_flags control_init true None (Some true) in
  reachable st ∧ pump_override st = None.
Proof.
  intros st.
  assert (reachable st) as Hreach.
  { exists [reading (Some "v"%char) 100 false false;
            reading (Some "p"%char) 100 true true;
            reading (Some "a"%char) 100 true true].
    do 2 eexists. vm_compute. reflexivity. }
  split; [exact Hreach|].
  apply (auto_excludes_pump_override st Hreach). reflexivity.
Defined.

(** Key [T] in the initial state, with answers at hand that would
    switch the pump on: they are not used when all goes through, and
    they are when the drain raises after the send. *)
Lemma test_key_skips_poll_witness :
  iteration control_init (reading (Some "T"%char) 100 false false)
  = (Next, control_init,
     [Log SendingTest; SendRaw raw_packet; Log TestSent]) ∧
  iteration control_init
    {| key := Some "t"%char; probe := DrainRaises;
       rr := Reply [100]; rc := Reply [false; false] |}
  = (Next, control_init,
     [Log SendingTest; SendRaw raw_packet; Log TestSent; Log TestFailed;
      WriteCoil 0 true; Log (PumpSet true); Log (Overall 100 true false)]).
Proof.
  assert (reachable control_init) as Hreach.
  { exists []. do 2 eexists. reflexivity. }
  split.
  - apply (test_key_skips_poll control_init
             (reading (Some "T"%char) 100 false false) "T" Hreach);
      reflexivity.
  - apply (test_key_skips_poll control_init
             {| key := Some "t"%char; probe := DrainRaises;
                rr := Reply [100]; rc := Reply [false; false] |}
             "t" Hreach); reflexivity.
Defined.

(** Force drain, then every other key except [q]. *)
Lemma valve_override_is_kept_witness :
  let st := set_flags control_init false (Some false) (Some true) in
  is_Some (valve_override
             (run st [reading (Some "a"%char) 400 false true;
                      reading (Some "p"%char) 400 false true;
                      reading (Some "f"%char) 400 true true;
                      reading (Some "t"%char) 400 true false;
                      reading (Some "v"%char) 400 true false]).1.2).
Proof.
  intros st. apply (valve_override_is_kept st). now exists true.
Defined.

(** Key [f] at a level of 900 with the pump off and the valve open. *)
Lemma force_fill_writes_witness :
  writes (iteration control_init (reading (Some "f"%char) 900 false true)).2
  = [(0%nat, true); (1%nat, false)].
Proof.
  assert (reachable control_init) as Hreach.
  { exists []. do 2 eexists. reflexivity. }
  apply (force_fill_writes control_init
           (reading (Some "f"%char) 900 false true) "f" 900 [] false true []
           Hreach); reflexivity.
Defined.

(** Key [D] at a level of 100 with the pump on and the valve closed. *)
Lemma force_drain_writes_witness :
  writes (iteration control_init (reading (Some "D"%char) 100 true false)).2
  = [(0%nat, false); (1%nat, true)].
Proof.
  assert (reachable control_init) as Hreach.
  { exists []. do 2 eexists. reflexivity. }
  apply (force_drain_writes control_init
           (reading (Some "D"%char) 100 true false) "D" 100 [] true false []
           Hreach); reflexivity.
Defined.

(** Key [q] at a level of 250 with the pump off: the pump is still
    switched on, and the second input is never used. *)
Lemma quit_key_ends_after_poll_witness :
  ∃ st' evs,
    run control_init [reading (Some "q"%char) 250 false false;
                      reading None 800 true false]
    = (Exited, st', evs) ∧
    writes evs = [(0%nat, true)].
Proof.
  assert (reachable control_init) as Hreach.
  { exists []. do 2 eexists. reflexivity. }
  destruct (quit_key_ends_after_poll control_init
              (reading (Some "q"%char) 250 false false) "q"
              [reading None 800 true false] Hreach eq_refl eq_refl eq_refl)
    as (Hrun & _ & _).
  do 2 eexists. split; [exact Hrun|reflexivity].
Defined.

(** Two polls, the second one with key [Q]. *)
Lemma exit_needs_quit_key_witness :
  let inputs := [reading None 400 false false;
                 reading (Some "Q"%char) 400 false false;
                 reading None 400 false false] in
  ∃ i ch, i ∈ inputs ∧ key i = Some ch ∧ lower ch = "q"%char.
Proof.
  intros inputs.
  eapply (exit_needs_quit_key inputs control_init); [reflexivity|].
  vm_compute. reflexivity.
Defined.

(** The latch one tick before its end, reached by four polls at 510. *)
Lemma latch_log_records_witness :
  let st := set_latch control_init true 1 in
  reachable st ∧
  Log Deactivated
    ∈ (poll st (Reply [510]) (Reply [false; false])).2 ∧
  Log Activated
    ∉ (poll st (Reply [510]) (Reply [false; false])).2.
Proof.
  intros st.
  assert (reachable st) as Hreach.
  { exists [reading None 510 false false; reading None 510 false false;
            reading None 510 false false; reading None 510 false false].
    do 2 eexists. vm_compute. reflexivity. }
  split; [exact Hreach|].
  destruct (latch_log_records st 510 [] false false [] Hreach)
    as (Hact & Hdeact & _).
  split; [now apply Hdeact|]. rewrite Hact. now intros [? _].
Defined.

End MasterExtra.
